(** * merge_available_points.py: a shallow embedding in Rocq

    The script [merge_available_points.py] loads two CSV files
    ([AllValues.csv] and [Available.csv]), infers the name and points
    columns, left-joins the available items onto the points values and
    writes [AvailableWithPoints.csv].

    Modelling choices:
    - a Python [str] is a list of Unicode code points ([list N]);
    - a file's content is a list of bytes ([list Byte.byte]);
    - a Python [dict] is an association list in insertion order, with
      Python's update-in-place assignment ([dict_set]);
    - a cell of a loaded row is [option str]: [None] is Python's [None],
      which [csv.DictReader] stores for cells missing from a short row;
    - raised exceptions are the left side of a sum; the script's effects
      (opening and writing the output file, printing) are a list of events.
    - Python's [float()] is kept abstract (a Section variable telling which
      trimmed texts it accepts); a concrete ASCII recogniser of Python's
      float syntax is given for the examples. *)

From Stdlib Require Import List String Ascii NArith Arith Lia Bool.
From Stdlib Require Import Init.Byte.
From Stdlib Require Strings.Byte.
From Stdlib Require Import Numbers.DecimalString.
Import ListNotations.

(** ** Python text *)

Definition str := list N.

Definition str_eq_dec : forall a b : str, {a = b} + {a <> b} :=
  list_eq_dec N.eq_dec.

(** A cell of a loaded row: [None] or a [str]. *)
Definition cell := option str.

Definition cell_eq_dec : forall a b : cell, {a = b} + {a <> b}.
Proof. decide equality; apply str_eq_dec. Defined.

Definition cell_eqb (a b : cell) : bool := if cell_eq_dec a b then true else false.

(** ASCII literal to Python text. *)
Definition u (s : string) : str :=
  map (fun a => N_of_ascii a) (list_ascii_of_string s).

Definition EMPTY : str := [].

(** Python's [str.isspace] on one code point. *)
Definition py_isspace (c : N) : bool :=
  ((9 <=? c) && (c <=? 13))%N || ((28 <=? c) && (c <=? 32))%N
  || (c =? 133)%N || (c =? 160)%N || (c =? 5760)%N
  || ((8192 <=? c) && (c <=? 8202))%N
  || (c =? 8232)%N || (c =? 8233)%N || (c =? 8239)%N
  || (c =? 8287)%N || (c =? 12288)%N.

Fixpoint lstrip (s : str) : str :=
  match s with
  | [] => []
  | c :: s' => if py_isspace c then lstrip s' else s
  end.

(** [str.strip()]. *)
Definition strip (s : str) : str := rev (lstrip (rev (lstrip s))).

(** [str.lower()] on the ASCII letters; no other code point lowers to
    one of the letters of ["name"], the only text the script searches in
    lowered headers. *)
Definition lower_char (c : N) : N :=
  if ((65 <=? c) && (c <=? 90))%N then (c + 32)%N else c.

Definition lower (s : str) : str := map lower_char s.

Fixpoint is_prefix (p s : str) : bool :=
  match p, s with
  | [], _ => true
  | c :: p', d :: s' => (c =? d)%N && is_prefix p' s'
  | _ :: _, [] => false
  end.

(** The [in] operator on strings: [sub in s]. *)
Fixpoint str_contains (sub s : str) : bool :=
  is_prefix sub s ||
  match s with
  | [] => false
  | _ :: s' => str_contains sub s'
  end.

(** [", ".join]-style concatenation. *)
Fixpoint str_join (sep : str) (xs : list str) : str :=
  match xs with
  | [] => []
  | [x] => x
  | x :: xs' => x ++ sep ++ str_join sep xs'
  end.

(** Decimal rendering of a [len(...)] in an f-string. *)
Definition nat_to_str (n : nat) : str :=
  u (NilEmpty.string_of_uint (Nat.to_uint n)).

(** ** Python dicts as insertion-ordered association lists *)

Section Dict.
Context {K V : Type}.
Variable K_eq_dec : forall a b : K, {a = b} + {a <> b}.

(** [k in d] *)
Fixpoint dict_mem (k : K) (d : list (K * V)) : bool :=
  match d with
  | [] => false
  | (k', _) :: d' => if K_eq_dec k k' then true else dict_mem k d'
  end.

(** [d.get(k)] returning [None] when absent. *)
Fixpoint dict_lookup (k : K) (d : list (K * V)) : option V :=
  match d with
  | [] => None
  | (k', v) :: d' => if K_eq_dec k k' then Some v else dict_lookup k d'
  end.

(** [d.get(k, default)] *)
Definition dict_get (d : list (K * V)) (k : K) (default : V) : V :=
  match dict_lookup k d with Some v => v | None => default end.

(** [d[k] = v]: an existing key keeps its position. *)
Fixpoint dict_set (k : K) (v : V) (d : list (K * V)) : list (K * V) :=
  match d with
  | [] => [(k, v)]
  | (k', v') :: d' =>
      if K_eq_dec k k' then (k', v) :: d' else (k', v') :: dict_set k v d'
  end.
End Dict.

(** [list(dict.fromkeys(xs))]: order-preserving deduplication. *)
Definition dedup (xs : list cell) : list cell :=
  map fst (fold_left (fun (d : list (cell * unit)) x => dict_set cell_eq_dec x tt d)
             xs []).

(** ** Exceptions and effects *)

Inductive exn :=
| ValueError (msg : str)
| UnicodeDecodeError (encoding : str) (msg : str)
| CsvError (msg : str)
| TypeError (msg : str).

Definition result (A : Type) := (exn + A)%type.

Inductive event :=
| EvOpenOutput (path : str)
| EvWriteHeader (fields : list str)
| EvWriteRow (row : list (str * cell))
| EvCloseOutput
| EvPrint (line : str).

(** A writer-and-error monad: the events emitted so far, then either the
    exception raised or the value returned. *)
Definition M (A : Type) := (list event * result A)%type.

Definition ret {A} (a : A) : M A := ([], inr a).

Definition lift {A} (r : result A) : M A := ([], r).

Definition emit (e : event) : M unit := ([e], inr tt).

Definition bind {A B} (m : M A) (k : A -> M B) : M B :=
  match m with
  | (ev, inl e) => (ev, inl e)
  | (ev, inr a) => let (ev', r) := k a in (ev ++ ev', r)
  end.

Notation "x <- m ;; k" := (bind m (fun x => k))
  (at level 61, m at next level, right associativity).
Notation "m ;;; k" := (bind m (fun _ => k))
  (at level 61, right associativity).

(** ** Decoding: the encodings tried by [load_csv] *)

Inductive encoding := UTF8_SIG | CP1252 | LATIN1.

Definition encoding_name (e : encoding) : str :=
  match e with
  | UTF8_SIG => u "utf-8-sig"
  | CP1252 => u "cp1252"
  | LATIN1 => u "latin-1"
  end.

Definition is_cont (b : N) : bool := ((128 <=? b) && (b <=? 191))%N.

Definition in_range (lo hi b : N) : bool := ((lo <=? b) && (b <=? hi))%N.

(** Strict UTF-8 (Python's ["utf-8"] codec with [errors="strict"]):
    no overlong forms, no surrogates, nothing above U+10FFFF. *)
Fixpoint utf8_decode (bs : list N) : option str :=
  match bs with
  | [] => Some []
  | b1 :: r1 =>
      if (b1 <? 128)%N then option_map (cons b1) (utf8_decode r1)
      else if in_range 194 223 b1 then
        match r1 with
        | b2 :: r2 =>
            if is_cont b2
            then option_map (cons ((b1 - 192) * 64 + (b2 - 128))%N) (utf8_decode r2)
            else None
        | [] => None
        end
      else if in_range 224 239 b1 then
        match r1 with
        | b2 :: b3 :: r3 =>
            let lo := if (b1 =? 224)%N then 160%N else 128%N in
            let hi := if (b1 =? 237)%N then 159%N else 191%N in
            if in_range lo hi b2 && is_cont b3
            then option_map
                   (cons ((b1 - 224) * 4096 + (b2 - 128) * 64 + (b3 - 128))%N)
                   (utf8_decode r3)
            else None
        | _ => None
        end
      else if in_range 240 244 b1 then
        match r1 with
        | b2 :: b3 :: b4 :: r4 =>
            let lo := if (b1 =? 240)%N then 144%N else 128%N in
            let hi := if (b1 =? 244)%N then 143%N else 191%N in
            if in_range lo hi b2 && is_cont b3 && is_cont b4
            then option_map
                   (cons ((b1 - 240) * 262144 + (b2 - 128) * 4096
                          + (b3 - 128) * 64 + (b4 - 128))%N)
                   (utf8_decode r4)
            else None
        | _ => None
        end
      else None
  end.

(** ["utf-8-sig"]: a leading byte order mark is dropped. *)
Definition utf8_sig_decode (bs : list N) : option str :=
  match bs with
  | 239 :: 187 :: 191 :: rest => utf8_decode rest
  | _ => utf8_decode bs
  end%N.

(** Python's ["cp1252"] codec: bytes 0x81, 0x8D, 0x8F, 0x90 and 0x9D are
    undefined and fail to decode. *)
Definition cp1252_char (b : N) : option N :=
  match b with
  | 128 => Some 8364 | 129 => None | 130 => Some 8218 | 131 => Some 402
  | 132 => Some 8222 | 133 => Some 8230 | 134 => Some 8224 | 135 => Some 8225
  | 136 => Some 710 | 137 => Some 8240 | 138 => Some 352 | 139 => Some 8249
  | 140 => Some 338 | 141 => None | 142 => Some 381 | 143 => None
  | 144 => None | 145 => Some 8216 | 146 => Some 8217 | 147 => Some 8220
  | 148 => Some 8221 | 149 => Some 8226 | 150 => Some 8211 | 151 => Some 8212
  | 152 => Some 732 | 153 => Some 8482 | 154 => Some 353 | 155 => Some 8250
  | 156 => Some 339 | 157 => None | 158 => Some 382 | 159 => Some 376
  | _ => Some b
  end%N.

Fixpoint cp1252_decode (bs : list N) : option str :=
  match bs with
  | [] => Some []
  | b :: r =>
      match cp1252_char b, cp1252_decode r with
      | Some c, Some s => Some (c :: s)
      | _, _ => None
      end
  end.

(** ["latin-1"]: every byte is the code point of the same number. *)
Definition latin1_decode (bs : list N) : option str := Some bs.

Definition decode (e : encoding) (bytes : list byte) : option str :=
  let bs := map Byte.to_N bytes in
  match e with
  | UTF8_SIG => utf8_sig_decode bs
  | CP1252 => cp1252_decode bs
  | LATIN1 => latin1_decode bs
  end.

(** ** Reading lines: [open(newline="")] splits at ["\n"], ["\r\n"] and
    ["\r"] and keeps the line endings. *)

Definition LF : N := 10%N.
Definition CR : N := 13%N.

Fixpoint split_lines_aux (s : str) (cur : str) : list str :=
  match s with
  | [] => match cur with [] => [] | _ => [rev cur] end
  | c :: rest =>
      if (c =? LF)%N then rev (c :: cur) :: split_lines_aux rest []
      else if (c =? CR)%N then
        match rest with
        | c2 :: rest2 =>
            if (c2 =? LF)%N then rev (c2 :: c :: cur) :: split_lines_aux rest2 []
            else rev (c :: cur) :: split_lines_aux rest []
        | [] => [rev (c :: cur)]
        end
      else split_lines_aux rest (c :: cur)
  end.

Definition split_lines (s : str) : list str := split_lines_aux s [].

(** ** The [csv] module's reader (C implementation [_csv.c], default
    ["excel"] dialect: delimiter [','], quote character (code point 34),
    [doublequote=True], no escape character, [skipinitialspace=False],
    [strict=False]) *)

Inductive parse_state :=
| START_RECORD
| START_FIELD
| IN_FIELD
| IN_QUOTED_FIELD
| QUOTE_IN_QUOTED_FIELD
| EAT_CRNL.

Definition parse_state_eqb (a b : parse_state) : bool :=
  match a, b with
  | START_RECORD, START_RECORD | START_FIELD, START_FIELD
  | IN_FIELD, IN_FIELD | IN_QUOTED_FIELD, IN_QUOTED_FIELD
  | QUOTE_IN_QUOTED_FIELD, QUOTE_IN_QUOTED_FIELD | EAT_CRNL, EAT_CRNL => true
  | _, _ => false
  end.

(** The reader object: its state, the fields of the current record, the
    current field (reversed) and its length. *)
Record reader := mkReader {
  state : parse_state;
  fields : list str;
  field : str;
  field_len : N
}.

(** A character of a line, or the end-of-line marker fed after it. *)
Inductive input := Chr (c : N) | EOL.

Definition DELIMITER : N := 44%N.
Definition QUOTECHAR : N := 34%N.

(** [csv.field_size_limit()] default. *)
Definition field_limit : N := 131072.

Definition parse_reset : reader := mkReader START_RECORD [] [] 0%N.

Definition parse_save_field (r : reader) : reader :=
  mkReader (state r) (fields r ++ [rev (field r)]) [] 0%N.

Definition parse_add_char (r : reader) (c : N) : result reader :=
  if (field_limit <=? field_len r)%N
  then inl (CsvError (u "field larger than field limit (131072)"))
  else inr (mkReader (state r) (fields r) (c :: field r) (N.succ (field_len r))).

Definition with_state (s : parse_state) (r : reader) : reader :=
  mkReader s (fields r) (field r) (field_len r).

Definition is_newline (x : input) : bool :=
  match x with Chr c => (c =? LF)%N || (c =? CR)%N | EOL => false end.

Definition is_chr (c : N) (x : input) : bool :=
  match x with Chr d => (c =? d)%N | EOL => false end.

Definition is_eol (x : input) : bool := match x with EOL => true | _ => false end.

(** End of record: save the field, then wait for the next record
    ([EOL]) or eat the line ending. *)
Definition end_of_line (r : reader) (x : input) : reader :=
  with_state (if is_eol x then START_RECORD else EAT_CRNL) (parse_save_field r).

Definition add_char_in (s : parse_state) (r : reader) (c : N) : result reader :=
  match parse_add_char r c with
  | inl e => inl e
  | inr r' => inr (with_state s r')
  end.

(** [START_FIELD], also reached by falling through from [START_RECORD]. *)
Definition start_field (r : reader) (x : input) : result reader :=
  if is_newline x || is_eol x then inr (end_of_line r x)
  else if is_chr QUOTECHAR x then inr (with_state IN_QUOTED_FIELD r)
  else if is_chr DELIMITER x then inr (parse_save_field r)
  else match x with
       | Chr c => add_char_in IN_FIELD r c
       | EOL => inr r
       end.

(** [parse_process_char]. *)
Definition parse_process_char (r : reader) (x : input) : result reader :=
  match state r with
  | START_RECORD =>
      if is_eol x then inr r
      else if is_newline x then inr (with_state EAT_CRNL r)
      else start_field (with_state START_FIELD r) x
  | START_FIELD => start_field r x
  | IN_FIELD =>
      if is_newline x || is_eol x then inr (end_of_line r x)
      else if is_chr DELIMITER x then inr (with_state START_FIELD (parse_save_field r))
      else match x with
           | Chr c => add_char_in IN_FIELD r c
           | EOL => inr r
           end
  | IN_QUOTED_FIELD =>
      if is_eol x then inr r
      else if is_chr QUOTECHAR x then inr (with_state QUOTE_IN_QUOTED_FIELD r)
      else match x with
           | Chr c => add_char_in IN_QUOTED_FIELD r c
           | EOL => inr r
           end
  | QUOTE_IN_QUOTED_FIELD =>
      if is_chr QUOTECHAR x then add_char_in IN_QUOTED_FIELD r QUOTECHAR
      else if is_chr DELIMITER x then inr (with_state START_FIELD (parse_save_field r))
      else if is_newline x || is_eol x then inr (end_of_line r x)
      else match x with
           | Chr c => add_char_in IN_FIELD r c
           | EOL => inr r
           end
  | EAT_CRNL =>
      if is_newline x then inr r
      else if is_eol x then inr (with_state START_RECORD r)
      else inl (CsvError (u "new-line character seen in unquoted field - do you need to open the file with newline=''?"))
  end.

Fixpoint feed (r : reader) (xs : list input) : result reader :=
  match xs with
  | [] => inr r
  | x :: xs' =>
      match parse_process_char r x with
      | inl e => inl e
      | inr r' => feed r' xs'
      end
  end.

(** All the records [Reader.__next__] returns over the lines of a file,
    and the exception that stops the iteration early, if any.  A record
    ends when a line's [EOL] leaves the reader in [START_RECORD]; at end of
    input an unfinished (quoted) field is saved and returned. *)
Fixpoint read_records (r : reader) (lines : list str) : list (list str) * option exn :=
  match lines with
  | [] =>
      if negb (field_len r =? 0)%N || parse_state_eqb (state r) IN_QUOTED_FIELD
      then ([fields (parse_save_field r)], None)
      else ([], None)
  | l :: ls =>
      match feed r (map Chr l ++ [EOL]) with
      | inl e => ([], Some e)
      | inr r' =>
          if parse_state_eqb (state r') START_RECORD
          then let (recs, err) := read_records parse_reset ls in (fields r' :: recs, err)
          else read_records r' ls
      end
  end.

Definition csv_reader (text : str) : list (list str) * option exn :=
  read_records parse_reset (split_lines text).

(** ** [csv.DictReader] and [load_csv] *)

(** A row returned by [DictReader.__next__]: [dict(zip(fieldnames, row))];
    cells beyond the header go under [restkey] (which is [None], so kept
    apart from the [str] keys here), header columns beyond the row get
    [restval] ([None]). *)
Record dict_row := mkDictRow {
  entries : list (str * option str);
  rest : option (list str)
}.

Definition make_dict_row (fieldnames row : list str) : dict_row :=
  let d := fold_left (fun d kv => dict_set str_eq_dec (fst kv) (Some (snd kv)) d)
             (combine fieldnames row) [] in
  let lf := List.length fieldnames in
  let lr := List.length row in
  if lf <? lr then mkDictRow d (Some (skipn lf row))
  else if lr <? lf then
    mkDictRow (fold_left (fun d k => dict_set str_eq_dec k None d) (skipn lr fieldnames) d)
      None
  else mkDictRow d None.

(** The [cleaned] dict built by [load_csv] from one [DictReader] row:
    the [None] key is skipped, keys are stripped, [str] values are
    stripped and other values are kept as they are. *)
Definition clean_row (row : dict_row) : list (str * cell) :=
  fold_left (fun cleaned kv =>
               dict_set str_eq_dec (strip (fst kv)) (option_map strip (snd kv)) cleaned)
    (entries row) [].

Definition is_nil {A} (l : list A) : bool := match l with [] => true | _ => false end.

(** The body of the [with] block of [load_csv] on a decoded text.
    [reader.fieldnames] is the first record; [DictReader] skips the empty
    records among the data rows. *)
Definition load_text (path : str) (text : str)
  : result (list str * list (list (str * cell))) :=
  let (records, err) := csv_reader text in
  let no_header := inl (ValueError (path ++ u " has no header row.")) in
  match records with
  | [] => match err with Some e => inl e | None => no_header end
  | header :: data =>
      if is_nil header then no_header
      else match err with
           | Some e => inl e
           | None =>
               let fieldnames := map strip header in
               let rows := map (fun r => clean_row (make_dict_row header r))
                             (filter (fun r => negb (is_nil r)) data) in
               inr (fieldnames, rows)
           end
  end.

Definition ENCODINGS : list encoding := [UTF8_SIG; CP1252; LATIN1].

(** The [for encoding in ...] loop of [load_csv]: a [UnicodeDecodeError]
    moves on to the next encoding, any other exception propagates. *)
Fixpoint load_with (path : str) (bytes : list byte) (encs : list encoding)
  (last_error : option encoding) : result (list str * list (list (str * cell))) :=
  match encs with
  | [] =>
      inl (UnicodeDecodeError
             (match last_error with Some e => encoding_name e | None => u "unknown" end)
             (u "Unable to decode " ++ path ++ u " using attempted encodings"))
  | e :: es =>
      match decode e bytes with
      | None => load_with path bytes es (Some e)
      | Some text => load_text path text
      end
  end.

Definition load_csv (path : str) (bytes : list byte)
  : result (list str * list (list (str * cell))) :=
  load_with path bytes ENCODINGS None.

(** ** Column inference, join and [main] *)

Definition NAME : str := u "Name".
Definition POINTS : str := u "Points".
Definition ALL_VALUES_PATH : str := u "AllValues.csv".
Definition AVAILABLE_PATH : str := u "Available.csv".
Definition OUTPUT_PATH : str := u "AvailableWithPoints.csv".

Definition str_eqb (a b : str) : bool := if str_eq_dec a b then true else false.

(** Truthiness of the [str] found by [next(..., None)]. *)
Definition truthy (m : option str) : option str :=
  match m with Some s => if is_nil s then None else Some s | None => None end.

Definition name_like (name : str) : bool := str_contains (u "name") (lower name).

Definition find_name_column (fieldnames : list str) (file_label : str) : result str :=
  match truthy (find (fun name => str_eqb name NAME) fieldnames) with
  | Some exact_match => inr exact_match
  | None =>
      match truthy (find name_like fieldnames) with
      | Some m => inr m
      | None => inl (ValueError (u "Could not find a name column in " ++ file_label ++ u "."))
      end
  end.

(** [row.get(key, "")] *)
Definition row_get (row : list (str * cell)) (key : str) : cell :=
  dict_get str_eq_dec row key (Some EMPTY).

Definition POINTS_MISSING : exn :=
  ValueError (u "Could not find a points column in AllValues.csv.").

(** Building the lookup index (lines 102-110 of [main]): the state is
    [(points_by_name, duplicate_names)]. *)
Definition index_step (all_name_column points_column : str)
  (acc : list (cell * cell) * list cell) (row : list (str * cell))
  : list (cell * cell) * list cell :=
  let (points_by_name, duplicate_names) := acc in
  let name := row_get row all_name_column in
  if dict_mem cell_eq_dec name points_by_name
  then (points_by_name, duplicate_names ++ [name])
  else (dict_set cell_eq_dec name (row_get row points_column) points_by_name,
        duplicate_names).

Definition build_index (all_rows : list (list (str * cell)))
  (all_name_column points_column : str) : list (cell * cell) * list cell :=
  fold_left (index_step all_name_column points_column) all_rows ([], []).

(** Probing it (lines 112-120): the state is [(missing_names, output_rows)]. *)
Definition probe_step (points_by_name : list (cell * cell)) (available_name_column : str)
  (acc : list cell * list (list (str * cell))) (row : list (str * cell))
  : list cell * list (list (str * cell)) :=
  let (missing_names, output_rows) := acc in
  let name := row_get row available_name_column in
  let points := dict_get cell_eq_dec points_by_name name (Some EMPTY) in
  let missing_names :=
    if cell_eqb points (Some EMPTY) then missing_names ++ [name] else missing_names in
  (missing_names, output_rows ++ [[(NAME, name); (POINTS, points)]]).

Definition probe (points_by_name : list (cell * cell)) (available_rows : list (list (str * cell)))
  (available_name_column : str) : list cell * list (list (str * cell)) :=
  fold_left (probe_step points_by_name available_name_column) available_rows ([], []).

(** Lines 102-120 together. *)
Definition join (all_rows : list (list (str * cell))) (all_name_column points_column : str)
  (available_rows : list (list (str * cell))) (available_name_column : str)
  : list cell * list (list (str * cell)) * list cell :=
  let (points_by_name, duplicate_names) := build_index all_rows all_name_column points_column in
  let (missing_names, output_rows) := probe points_by_name available_rows available_name_column in
  (duplicate_names, output_rows, missing_names).

(** [", ".join(items)]: a non-[str] item raises [TypeError]. *)
Fixpoint join_items (i : nat) (items : list cell) : result (list str) :=
  match items with
  | [] => inr []
  | None :: _ =>
      inl (TypeError (u "sequence item " ++ nat_to_str i
                      ++ u ": expected str instance, NoneType found"))
  | Some s :: items' =>
      match join_items (S i) items' with
      | inl e => inl e
      | inr ss => inr (s :: ss)
      end
  end.

Definition warn_list (prefix : str) (values : list cell) : M unit :=
  if is_nil values then ret tt
  else match join_items 0 values with
       | inl e => lift (inl e)
       | inr ss => emit (EvPrint (u "WARNING: " ++ prefix ++ u ": " ++ str_join (u ", ") ss))
       end.

Definition DUPLICATE_PREFIX : str :=
  u "Duplicate names in AllValues.csv (using first occurrence)".
Definition MISSING_PREFIX : str :=
  u "Names from Available.csv not found in AllValues.csv".

Section Script.

(** Which trimmed texts Python's [float()] accepts. *)
Variable float_repr : str -> bool.

Definition is_numeric (value : cell) : bool :=
  match value with
  | None => false
  | Some v =>
      let v := strip v in
      if is_nil v then false else float_repr (strip v)
  end.

Definition non_blank (value : cell) : bool :=
  match value with None => false | Some v => negb (is_nil (strip v)) end.

(** The [for column_name in fieldnames] loop of [find_points_column]. *)
Fixpoint find_numeric_column (columns : list str) (rows : list (list (str * cell)))
  : result str :=
  match columns with
  | [] => inl POINTS_MISSING
  | column_name :: columns' =>
      let values := map (fun row => row_get row column_name) rows in
      let non_blank_values := filter non_blank values in
      if negb (is_nil non_blank_values) && forallb is_numeric non_blank_values
      then inr column_name
      else find_numeric_column columns' rows
  end.

Definition find_points_column (fieldnames : list str) (rows : list (list (str * cell)))
  : result str :=
  match truthy (find (fun name => str_eqb name POINTS) fieldnames) with
  | Some exact_match => inr exact_match
  | None => find_numeric_column fieldnames rows
  end.

(** [main], given the bytes of [AllValues.csv] and [Available.csv]. *)
Definition main (all_values available : list byte) : M unit :=
  all <- lift (load_csv ALL_VALUES_PATH all_values) ;;
  avail <- lift (load_csv AVAILABLE_PATH available) ;;
  let (all_fields, all_rows) := all in
  let (available_fields, available_rows) := avail in
  all_name_column <- lift (find_name_column all_fields ALL_VALUES_PATH) ;;
  available_name_column <- lift (find_name_column available_fields AVAILABLE_PATH) ;;
  points_column <- lift (find_points_column all_fields all_rows) ;;
  let '(duplicate_names, output_rows, missing_names) :=
    join all_rows all_name_column points_column available_rows available_name_column in
  emit (EvOpenOutput OUTPUT_PATH) ;;;
  emit (EvWriteHeader [NAME; POINTS]) ;;;
  fold_right (fun row k => emit (EvWriteRow row) ;;; k) (ret tt) output_rows ;;;
  emit EvCloseOutput ;;;
  let unique_duplicates := dedup duplicate_names in
  let unique_missing := dedup missing_names in
  warn_list DUPLICATE_PREFIX unique_duplicates ;;;
  warn_list MISSING_PREFIX unique_missing ;;;
  emit (EvPrint (u "Wrote " ++ OUTPUT_PATH ++ u " with "
                 ++ nat_to_str (List.length output_rows) ++ u " rows.")).

End Script.

(** ** A concrete [float()] for the examples: Python's float syntax over
    ASCII ([sign? (inf | infinity | nan | digits ['.' digits] [exponent])],
    digits possibly grouped by single underscores). *)

Definition is_digit (c : N) : bool := in_range 48 57 c.

(** The input left after the longest run of digits and single underscores
    between digits, a first digit having been consumed. *)
Fixpoint digitpart_rest (s : str) : str :=
  match s with
  | [] => []
  | c :: s' =>
      if is_digit c then digitpart_rest s'
      else if (c =? 95)%N then
        match s' with
        | d :: s'' => if is_digit d then digitpart_rest s'' else s
        | [] => s
        end
      else s
  end.

Definition digitpart (s : str) : option str :=
  match s with
  | c :: s' => if is_digit c then Some (digitpart_rest s') else None
  | [] => None
  end.

Definition opt_sign (s : str) : str :=
  match s with
  | c :: s' => if (c =? 43)%N || (c =? 45)%N then s' else s
  | [] => s
  end.

Definition exponent_ok (s : str) : bool :=
  match s with
  | [] => true
  | c :: s' =>
      if (c =? 101)%N || (c =? 69)%N
      then match digitpart (opt_sign s') with Some [] => true | _ => false end
      else false
  end.

Definition after_point (r : str) : bool :=
  match digitpart r with Some r' => exponent_ok r' | None => exponent_ok r end.

Definition numeric_ok (s : str) : bool :=
  match digitpart s with
  | Some (46 :: r) => after_point r
  | Some r => exponent_ok r
  | None =>
      match s with
      | 46 :: r => match digitpart r with Some r' => exponent_ok r' | None => false end
      | _ => false
      end
  end%N.

Definition float_repr_ascii (s : str) : bool :=
  let t := opt_sign s in
  let l := lower t in
  str_eqb l (u "inf") || str_eqb l (u "infinity") || str_eqb l (u "nan") || numeric_ok t.

(** Bytes of an ASCII text. *)
Definition bytes_of (s : string) : list byte :=
  map (fun a => match Byte.of_N (N_of_ascii a) with Some b => b | None => x00 end)
    (list_ascii_of_string s).

(** * Specifications stated from the spec's words *)

(** The points value of the first value-source row named [k], or [""]. *)
Definition first_points (all_rows : list (list (str * cell))) (name_column points_column : str)
  (k : cell) : cell :=
  match find (fun r => cell_eqb (row_get r name_column) k) all_rows with
  | Some r => row_get r points_column
  | None => Some EMPTY
  end.

(** The elements of [l] whose value already occurs earlier in [l]
    ([seen] is what precedes [l]): every repeat occurrence. *)
Fixpoint repeats_after (seen l : list cell) : list cell :=
  match l with
  | [] => []
  | x :: l' =>
      (if in_dec cell_eq_dec x seen then [x] else []) ++ repeats_after (seen ++ [x]) l'
  end.

Definition repeats (l : list cell) : list cell := repeats_after [] l.

(** The elements of [l] whose value does not occur earlier: each value
    once, at its first occurrence. *)
Fixpoint firsts_after (seen l : list cell) : list cell :=
  match l with
  | [] => []
  | x :: l' =>
      (if in_dec cell_eq_dec x seen then [] else [x]) ++ firsts_after (seen ++ [x]) l'
  end.

Definition first_occurrences (l : list cell) : list cell := firsts_after [] l.

(** A blank cell: [None] or only whitespace. *)
Definition blank (v : cell) : bool :=
  match v with None => true | Some s => is_nil (strip s) end.

(** A cell that Python's [float()] parses ([float()] trims its argument). *)
Definition parses_as_float (float_repr : str -> bool) (v : cell) : bool :=
  match v with Some s => float_repr (strip s) | None => false end.

(** The spec's numeric column: at least one non-blank cell, and every
    non-blank cell parses as a float. *)
Definition numeric_column (float_repr : str -> bool) (rows : list (list (str * cell)))
  (c : str) : bool :=
  let values := map (fun r => row_get r c) rows in
  existsb (fun v => negb (blank v)) values
  && forallb (fun v => blank v || parses_as_float float_repr v) values.

(** The ways the loading and column-inference stage of [main] (lines
    95-100) can fail, with the exception raised. *)
Inductive setup_fails (float_repr : str -> bool) (all_values available : list byte)
  : exn -> Prop :=
| load_all_fails e :
    load_csv ALL_VALUES_PATH all_values = inl e ->
    setup_fails float_repr all_values available e
| load_available_fails t e :
    load_csv ALL_VALUES_PATH all_values = inr t ->
    load_csv AVAILABLE_PATH available = inl e ->
    setup_fails float_repr all_values available e
| all_name_fails fa ra fb rb e :
    load_csv ALL_VALUES_PATH all_values = inr (fa, ra) ->
    load_csv AVAILABLE_PATH available = inr (fb, rb) ->
    find_name_column fa ALL_VALUES_PATH = inl e ->
    setup_fails float_repr all_values available e
| available_name_fails fa ra fb rb c e :
    load_csv ALL_VALUES_PATH all_values = inr (fa, ra) ->
    load_csv AVAILABLE_PATH available = inr (fb, rb) ->
    find_name_column fa ALL_VALUES_PATH = inr c ->
    find_name_column fb AVAILABLE_PATH = inl e ->
    setup_fails float_repr all_values available e
| points_fails fa ra fb rb c c' e :
    load_csv ALL_VALUES_PATH all_values = inr (fa, ra) ->
    load_csv AVAILABLE_PATH available = inr (fb, rb) ->
    find_name_column fa ALL_VALUES_PATH = inr c ->
    find_name_column fb AVAILABLE_PATH = inr c' ->
    find_points_column float_repr fa ra = inl e ->
    setup_fails float_repr all_values available e.

(** The text of the first encoding of [ENCODINGS] that decodes [bytes]. *)
Fixpoint first_decoding (encs : list encoding) (bytes : list byte) : option str :=
  match encs with
  | [] => None
  | e :: es =>
      match decode e bytes with
      | Some text => Some text
      | None => first_decoding es bytes
      end
  end.

Definition decoded (bytes : list byte) : option str := first_decoding ENCODINGS bytes.

(** * Lemmas *)

Section DictLemmas.
Context {K V : Type}.
Variable K_eq_dec : forall a b : K, {a = b} + {a <> b}.

Lemma dict_lookup_set_eq (k : K) (v : V) d :
  dict_lookup K_eq_dec k (dict_set K_eq_dec k v d) = Some v.
Proof.
  induction d as [|[k' v'] d IH]; simpl.
  - destruct (K_eq_dec k k); congruence.
  - destruct (K_eq_dec k k') as [->|Hne]; simpl.
    + destruct (K_eq_dec k' k'); congruence.
    + destruct (K_eq_dec k k'); [contradiction|exact IH].
Qed.

Lemma dict_lookup_set_neq (k k0 : K) (v : V) d :
  k <> k0 -> dict_lookup K_eq_dec k0 (dict_set K_eq_dec k v d) = dict_lookup K_eq_dec k0 d.
Proof.
  intros Hne. induction d as [|[k' v'] d IH]; simpl.
  - destruct (K_eq_dec k0 k); congruence.
  - destruct (K_eq_dec k k') as [->|Hne']; simpl.
    + destruct (K_eq_dec k0 k'); [congruence|reflexivity].
    + destruct (K_eq_dec k0 k'); [reflexivity|exact IH].
Qed.

Lemma dict_mem_lookup (k : K) (d : list (K * V)) :
  dict_mem K_eq_dec k d = match dict_lookup K_eq_dec k d with Some _ => true | None => false end.
Proof.
  induction d as [|[k' v'] d IH]; simpl; [reflexivity|].
  destruct (K_eq_dec k k'); [reflexivity|exact IH].
Qed.

Lemma dict_mem_in_keys (k : K) (d : list (K * V)) :
  dict_mem K_eq_dec k d = true <-> In k (map fst d).
Proof.
  induction d as [|[k' v'] d IH]; simpl; [split; [discriminate|tauto]|].
  destruct (K_eq_dec k k') as [->|Hne]; [tauto|].
  rewrite IH. split; [tauto|]. intros [H|H]; [congruence|exact H].
Qed.

Lemma dict_set_keys (k : K) (v : V) (d : list (K * V)) :
  map fst (dict_set K_eq_dec k v d) =
  if dict_mem K_eq_dec k d then map fst d else map fst d ++ [k].
Proof.
  induction d as [|[k' v'] d IH]; simpl; [reflexivity|].
  destruct (K_eq_dec k k') as [->|Hne]; simpl; [reflexivity|].
  rewrite IH. destruct (dict_mem K_eq_dec k d); reflexivity.
Qed.
End DictLemmas.

Lemma find_app_single {A} (p : A -> bool) l x :
  find p (l ++ [x]) = match find p l with Some y => Some y | None => if p x then Some x else None end.
Proof.
  induction l as [|y l IH]; simpl; [reflexivity|].
  destruct (p y); [reflexivity|exact IH].
Qed.

Lemma cell_eqb_spec a b : cell_eqb a b = true <-> a = b.
Proof. unfold cell_eqb. destruct (cell_eq_dec a b); split; congruence. Qed.

Lemma find_cell_none_iff {A} (f : A -> cell) (k : cell) (l : list A) :
  find (fun r => cell_eqb (f r) k) l = None <-> ~ In k (map f l).
Proof.
  induction l as [|y l IH]; simpl; [tauto|].
  destruct (cell_eqb (f y) k) eqn:E.
  - apply cell_eqb_spec in E. split; [discriminate|]. intros H; exfalso; apply H; left; exact E.
  - rewrite IH. split.
    + intros H [H'|H']; [|exact (H H')]. rewrite H' in E.
      assert (cell_eqb k k = true) by (apply cell_eqb_spec; reflexivity). congruence.
    + tauto.
Qed.

Lemma repeats_after_app seen l x :
  repeats_after seen (l ++ [x]) =
  repeats_after seen l ++ (if in_dec cell_eq_dec x (seen ++ l) then [x] else []).
Proof.
  revert seen. induction l as [|y l IH]; intros seen; simpl.
  - rewrite !app_nil_r. reflexivity.
  - rewrite IH, <- app_assoc. simpl. rewrite <- app_assoc. reflexivity.
Qed.

Lemma repeats_app l x :
  repeats (l ++ [x]) = repeats l ++ (if in_dec cell_eq_dec x l then [x] else []).
Proof. unfold repeats. rewrite repeats_after_app. reflexivity. Qed.

Lemma firsts_after_app seen l x :
  firsts_after seen (l ++ [x]) =
  firsts_after seen l ++ (if in_dec cell_eq_dec x (seen ++ l) then [] else [x]).
Proof.
  revert seen. induction l as [|y l IH]; intros seen; simpl.
  - rewrite !app_nil_r. reflexivity.
  - rewrite IH, <- app_assoc. simpl. rewrite <- app_assoc. reflexivity.
Qed.

Lemma first_occurrences_app l x :
  first_occurrences (l ++ [x]) =
  first_occurrences l ++ (if in_dec cell_eq_dec x l then [] else [x]).
Proof. unfold first_occurrences. rewrite firsts_after_app. reflexivity. Qed.

Lemma in_first_occurrences l y : In y (first_occurrences l) <-> In y l.
Proof.
  induction l as [|x l IH] using rev_ind; [simpl; tauto|].
  rewrite first_occurrences_app, !in_app_iff, IH.
  destruct (in_dec cell_eq_dec x l); simpl; split; intuition congruence.
Qed.

Lemma count_first_occurrences l y :
  count_occ cell_eq_dec (first_occurrences l) y = if in_dec cell_eq_dec y l then 1 else 0.
Proof.
  induction l as [|x l IH] using rev_ind; [reflexivity|].
  rewrite first_occurrences_app, count_occ_app, IH.
  destruct (in_dec cell_eq_dec y l) as [Hy|Hy];
    destruct (in_dec cell_eq_dec y (l ++ [x])) as [Hy'|Hy'];
    destruct (in_dec cell_eq_dec x l) as [Hx|Hx]; simpl;
    try (destruct (cell_eq_dec x y)); subst;
    rewrite ?in_app_iff in *; simpl in *; intuition (try congruence; try lia).
Qed.

Lemma count_repeats l y :
  count_occ cell_eq_dec (repeats l) y = count_occ cell_eq_dec l y - 1.
Proof.
  induction l as [|x l IH] using rev_ind; [reflexivity|].
  rewrite repeats_app, !count_occ_app, IH.
  destruct (in_dec cell_eq_dec x l) as [Hx|Hx]; simpl;
    destruct (cell_eq_dec x y) as [->|Hne]; simpl; try lia.
  - apply (count_occ_In cell_eq_dec) in Hx. lia.
  - rewrite (proj1 (count_occ_not_In cell_eq_dec l y) Hx). lia.
Qed.

Lemma dedup_first_occurrences l : dedup l = first_occurrences l.
Proof.
  unfold dedup.
  induction l as [|x l IH] using rev_ind; [reflexivity|].
  rewrite fold_left_app. simpl. rewrite dict_set_keys, IH, first_occurrences_app.
  assert (Hm : dict_mem cell_eq_dec x
                 (fold_left (fun d x => dict_set cell_eq_dec x tt d) l []) = true <-> In x l).
  { rewrite dict_mem_in_keys, IH. apply in_first_occurrences. }
  destruct (in_dec cell_eq_dec x l) as [Hx|Hx].
  - rewrite (proj2 Hm Hx), app_nil_r. reflexivity.
  - destruct (dict_mem cell_eq_dec x _) eqn:E; [exfalso; apply Hx, Hm; reflexivity|reflexivity].
Qed.

Lemma build_index_app rows r nc pc :
  build_index (rows ++ [r]) nc pc = index_step nc pc (build_index rows nc pc) r.
Proof. unfold build_index. rewrite fold_left_app. reflexivity. Qed.

Lemma build_index_lookup rows nc pc k :
  dict_lookup cell_eq_dec k (fst (build_index rows nc pc)) =
  option_map (fun r => row_get r pc) (find (fun r => cell_eqb (row_get r nc) k) rows).
Proof.
  revert k. induction rows as [|r rows IH] using rev_ind; intros k; [reflexivity|].
  rewrite build_index_app, find_app_single.
  destruct (build_index rows nc pc) as [pbn dups] eqn:B. simpl in IH |- *.
  destruct (dict_mem cell_eq_dec (row_get r nc) pbn) eqn:M; simpl.
  - rewrite IH. destruct (find _ rows) eqn:F; [reflexivity|].
    destruct (cell_eqb (row_get r nc) k) eqn:E; [|reflexivity].
    apply cell_eqb_spec in E. subst k.
    rewrite dict_mem_lookup, IH, F in M. discriminate.
  - destruct (cell_eq_dec (row_get r nc) k) as [<-|Hne].
    + rewrite dict_lookup_set_eq.
      rewrite dict_mem_lookup, IH in M.
      destruct (find _ rows); [discriminate|].
      assert (cell_eqb (row_get r nc) (row_get r nc) = true) as -> by (apply cell_eqb_spec; reflexivity).
      reflexivity.
    + rewrite dict_lookup_set_neq by exact Hne. rewrite IH.
      destruct (find _ rows); [reflexivity|].
      destruct (cell_eqb (row_get r nc) k) eqn:E; [apply cell_eqb_spec in E; congruence|reflexivity].
Qed.

Lemma build_index_mem rows nc pc k :
  dict_mem cell_eq_dec k (fst (build_index rows nc pc)) = true <->
  In k (map (fun r => row_get r nc) rows).
Proof.
  rewrite dict_mem_lookup, build_index_lookup.
  destruct (find _ rows) eqn:F; simpl.
  - split; [|reflexivity]. intros _.
    destruct (in_dec cell_eq_dec k (map (fun r => row_get r nc) rows)) as [H|H]; [exact H|].
    apply (find_cell_none_iff (fun r => row_get r nc)) in H. congruence.
  - apply (find_cell_none_iff (fun r => row_get r nc)) in F. split; [discriminate|tauto].
Qed.

Lemma build_index_dups rows nc pc :
  snd (build_index rows nc pc) = repeats (map (fun r => row_get r nc) rows).
Proof.
  induction rows as [|r rows IH] using rev_ind; [reflexivity|].
  rewrite build_index_app, map_app.
  change (map (fun r => row_get r nc) [r]) with [row_get r nc].
  rewrite repeats_app.
  pose proof (build_index_mem rows nc pc (row_get r nc)) as Hm.
  destruct (build_index rows nc pc) as [pbn dups]. simpl in IH, Hm |- *.
  destruct (in_dec cell_eq_dec (row_get r nc) (map (fun r => row_get r nc) rows)) as [H|H].
  - rewrite (proj2 Hm H). simpl. rewrite IH. reflexivity.
  - destruct (dict_mem cell_eq_dec (row_get r nc) pbn) eqn:E.
    + exfalso. apply H, Hm. reflexivity.
    + simpl. rewrite IH, app_nil_r. reflexivity.
Qed.

Lemma probe_fold pbn anc rows missing out :
  fold_left (probe_step pbn anc) rows (missing, out) =
  (missing ++ flat_map (fun r =>
       if cell_eqb (dict_get cell_eq_dec pbn (row_get r anc) (Some EMPTY)) (Some EMPTY)
       then [row_get r anc] else []) rows,
   out ++ map (fun r => [(NAME, row_get r anc);
                         (POINTS, dict_get cell_eq_dec pbn (row_get r anc) (Some EMPTY))]) rows).
Proof.
  revert missing out. induction rows as [|r rows IH]; intros missing out; simpl.
  - rewrite !app_nil_r. reflexivity.
  - destruct (cell_eqb _ (Some EMPTY)); rewrite IH, <- !app_assoc; reflexivity.
Qed.

Lemma index_get_first_points rows nc pc k :
  dict_get cell_eq_dec (fst (build_index rows nc pc)) k (Some EMPTY) =
  first_points rows nc pc k.
Proof.
  unfold dict_get, first_points. rewrite build_index_lookup.
  destruct (find _ rows); reflexivity.
Qed.

Lemma lstrip_suffix s : exists p, s = p ++ lstrip s.
Proof.
  induction s as [|c s IH]; simpl; [exists []; reflexivity|].
  destruct (py_isspace c).
  - destruct IH as [p Hp]. exists (c :: p). simpl. rewrite <- Hp. reflexivity.
  - exists []. reflexivity.
Qed.

Lemma lstrip_head s :
  lstrip s = [] \/ exists c t, lstrip s = c :: t /\ py_isspace c = false.
Proof.
  induction s as [|c s IH]; simpl; [left; reflexivity|].
  destruct (py_isspace c) eqn:E; [exact IH|right; exists c, s; auto].
Qed.

Lemma lstrip_idem s : lstrip (lstrip s) = lstrip s.
Proof.
  destruct (lstrip_head s) as [->|[c [t [-> Hc]]]]; simpl; [reflexivity|].
  rewrite Hc. reflexivity.
Qed.

Lemma strip_idem s : strip (strip s) = strip s.
Proof.
  unfold strip. set (t := lstrip s).
  set (w := lstrip (rev t)).
  destruct (lstrip_suffix (rev t)) as [p Hp]. fold w in Hp.
  assert (Ht : t = rev w ++ rev p).
  { rewrite <- rev_app_distr, <- Hp, rev_involutive. reflexivity. }
  assert (Hw : lstrip (rev w) = rev w).
  { destruct (rev w) as [|c r] eqn:Er; [reflexivity|].
    destruct (lstrip_head s) as [Hs|[c' [t' [Hs Hc]]]].
    - fold t in Hs. rewrite Hs in Ht. destruct (rev p); discriminate.
    - fold t in Hs. rewrite Hs in Ht. simpl in Ht. injection Ht as -> _.
      simpl. rewrite Hc. reflexivity. }
  rewrite Hw, rev_involutive. unfold w. rewrite lstrip_idem. reflexivity.
Qed.

Lemma is_prefix_spec p s : is_prefix p s = true <-> exists q, s = p ++ q.
Proof.
  revert s. induction p as [|c p IH]; intros s; simpl.
  - split; [intros _; exists s; reflexivity|reflexivity].
  - destruct s as [|d s].
    + split; [discriminate|intros [q Hq]; discriminate].
    + rewrite andb_true_iff, N.eqb_eq, IH. split.
      * intros [-> [q ->]]. exists q. reflexivity.
      * intros [q Hq]. injection Hq as -> ->. split; [reflexivity|exists q; reflexivity].
Qed.

Lemma str_contains_spec sub s :
  str_contains sub s = true <-> exists p q, s = p ++ sub ++ q.
Proof.
  induction s as [|c s IH]; simpl; rewrite orb_true_iff, is_prefix_spec.
  - split.
    + intros [[q Hq]|H]; [exists [], q; exact Hq|discriminate].
    + intros [p [q Hpq]]. left. exists q.
      destruct p; [exact Hpq|discriminate].
  - rewrite IH. split.
    + intros [[q Hq]|[p [q Hpq]]].
      * exists [], q. exact Hq.
      * exists (c :: p), q. rewrite Hpq. reflexivity.
    + intros [p [q Hpq]]. destruct p as [|c' p].
      * left. exists q. exact Hpq.
      * right. injection Hpq as -> Hs. exists p, q. exact Hs.
Qed.

Lemma find_str_eqb a l :
  find (fun x => str_eqb x a) l = if in_dec str_eq_dec a l then Some a else None.
Proof.
  induction l as [|x l IH]; simpl; [reflexivity|].
  unfold str_eqb at 1. destruct (str_eq_dec x a) as [->|Hne].
  - destruct (str_eq_dec a a); [reflexivity|contradiction].
  - rewrite IH. destruct (in_dec str_eq_dec a l); destruct (str_eq_dec x a); try congruence;
      try reflexivity; exfalso; intuition congruence.
Qed.

Lemma truthy_find_nonempty (p : str -> bool) l :
  (forall s, p s = true -> s <> []) -> truthy (find p l) = find p l.
Proof.
  intros Hp. destruct (find p l) as [s|] eqn:F; simpl; [|reflexivity].
  apply find_some in F. destruct F as [_ F]. apply Hp in F.
  destruct s; [contradiction|reflexivity].
Qed.

Lemma name_like_nonempty s : name_like s = true -> s <> [].
Proof. intros H ->. discriminate H. Qed.

Lemma numeric_column_code float_repr rows c :
  (negb (is_nil (filter non_blank (map (fun row => row_get row c) rows)))
   && forallb (is_numeric float_repr) (filter non_blank (map (fun row => row_get row c) rows)))
  = numeric_column float_repr rows c.
Proof.
  unfold numeric_column. generalize (map (fun row => row_get row c) rows) as vs.
  intros vs. f_equal.
  - induction vs as [|v vs IH]; [reflexivity|]. simpl.
    destruct v as [s|]; simpl; [destruct (is_nil (strip s)); simpl; auto|exact IH].
  - induction vs as [|v vs IH]; [reflexivity|]. simpl.
    destruct v as [s|]; simpl; [|exact IH].
    destruct (is_nil (strip s)) eqn:E; simpl; [exact IH|].
    rewrite E, strip_idem, IH. reflexivity.
Qed.

Lemma find_numeric_column_find float_repr cols rows :
  find_numeric_column float_repr cols rows =
  match find (numeric_column float_repr rows) cols with
  | Some c => inr c
  | None => inl POINTS_MISSING
  end.
Proof.
  induction cols as [|c cols IH]; simpl; [reflexivity|].
  rewrite numeric_column_code. destruct (numeric_column float_repr rows c); [reflexivity|exact IH].
Qed.

(** * Claims *)

(** C1 (left-join correctness): the joined rows are one per
    available-items row, in input order; each row's Points is the
    points-column value of the first value-source row whose name-column
    value equals that row's name, or [""] when there is none. *)
Theorem join_left_join_correct all_rows all_name_column points_column
  available_rows available_name_column :
  let '(_, output_rows, _) :=
    join all_rows all_name_column points_column available_rows available_name_column in
  output_rows =
  map (fun r => [(NAME, row_get r available_name_column);
                 (POINTS, first_points all_rows all_name_column points_column
                            (row_get r available_name_column))])
      available_rows.
Proof.
  unfold join.
  pose proof (index_get_first_points all_rows all_name_column points_column) as Hg.
  destruct (build_index all_rows all_name_column points_column) as [pbn dups].
  simpl in Hg. unfold probe. rewrite probe_fold. simpl.
  apply map_ext. intros r. rewrite Hg. reflexivity.
Qed.

(** C2 (totality): the join emits exactly as many rows as the
    available-items table has, whatever matches. *)
Theorem join_total all_rows all_name_column points_column
  available_rows available_name_column :
  let '(_, output_rows, _) :=
    join all_rows all_name_column points_column available_rows available_name_column in
  List.length output_rows = List.length available_rows.
Proof.
  unfold join.
  destruct (build_index all_rows all_name_column points_column) as [pbn dups].
  unfold probe. rewrite probe_fold. simpl. apply length_map.
Qed.

(** C3 (first occurrence wins, duplicate diagnostics): the index maps
    each name to the points value of its first value-source row; every
    repeat occurrence of a name is recorded in the duplicate list; the
    reported (deduplicated) list keeps each value at its first
    occurrence and holds each duplicated name exactly once and no other. *)
Theorem build_index_first_wins all_rows all_name_column points_column :
  let '(points_by_name, duplicate_names) :=
    build_index all_rows all_name_column points_column in
  let names := map (fun r => row_get r all_name_column) all_rows in
  (forall k, dict_lookup cell_eq_dec k points_by_name =
             option_map (fun r => row_get r points_column)
               (find (fun r => cell_eqb (row_get r all_name_column) k) all_rows)) /\
  duplicate_names = repeats names /\
  dedup duplicate_names = first_occurrences duplicate_names /\
  (forall x, count_occ cell_eq_dec (dedup duplicate_names) x =
             if 2 <=? count_occ cell_eq_dec names x then 1 else 0).
Proof.
  pose proof (build_index_lookup all_rows all_name_column points_column) as Hl.
  pose proof (build_index_dups all_rows all_name_column points_column) as Hd.
  destruct (build_index all_rows all_name_column points_column) as [pbn dups].
  simpl in Hl, Hd. cbv zeta.
  split; [exact Hl|]. split; [exact Hd|]. split; [apply dedup_first_occurrences|].
  intros x. rewrite dedup_first_occurrences, count_first_occurrences.
  pose proof (count_occ_In cell_eq_dec dups x) as Hc.
  rewrite Hd, count_repeats in Hc. rewrite <- Hd in Hc.
  destruct (in_dec cell_eq_dec x dups) as [H|H];
    destruct (Nat.leb_spec 2 (count_occ cell_eq_dec
                                (map (fun r => row_get r all_name_column) all_rows) x));
    try reflexivity; exfalso.
  - apply Hc in H. lia.
  - apply H, Hc. lia.
Qed.

(** C6 (name-column inference): a header equal to [Name] is chosen if
    there is one; otherwise the first header whose lower-cased text
    contains ["name"]; otherwise a [ValueError] naming the file. *)
Theorem find_name_column_spec fieldnames file_label :
  (forall h, name_like h = true <-> exists p q, lower h = p ++ u "name" ++ q) /\
  find_name_column fieldnames file_label =
  if in_dec str_eq_dec NAME fieldnames then inr NAME
  else match find name_like fieldnames with
       | Some h => inr h
       | None => inl (ValueError (u "Could not find a name column in " ++ file_label ++ u "."))
       end.
Proof.
  split; [intros h; apply str_contains_spec|].
  unfold find_name_column. rewrite find_str_eqb.
  destruct (in_dec str_eq_dec NAME fieldnames); [reflexivity|]. simpl.
  rewrite truthy_find_nonempty by exact name_like_nonempty.
  destruct (find name_like fieldnames); reflexivity.
Qed.

(** C5 (points-column inference): a header equal to [Points] is chosen
    if there is one; otherwise the first header whose column has a
    non-blank cell and whose non-blank cells all parse as floats;
    otherwise a [ValueError]; there is no other failure. *)
Theorem find_points_column_spec float_repr fieldnames rows :
  find_points_column float_repr fieldnames rows =
  if in_dec str_eq_dec POINTS fieldnames then inr POINTS
  else match find (numeric_column float_repr rows) fieldnames with
       | Some c => inr c
       | None => inl POINTS_MISSING
       end.
Proof.
  unfold find_points_column. rewrite find_str_eqb, find_numeric_column_find.
  destruct (in_dec str_eq_dec POINTS fieldnames); reflexivity.
Qed.

Ltac split_ifs :=
  repeat match goal with
  | |- context [if ?b then _ else _] => destruct b
  | |- context [match ?m with inl _ => _ | inr _ => _ end] => destruct m eqn:?
  end.

Lemma parse_add_char_err r c e :
  parse_add_char r c = inl e -> exists m, e = CsvError m.
Proof.
  unfold parse_add_char. destruct (field_limit <=? field_len r)%N; intros H;
    inversion H; eauto.
Qed.

Lemma add_char_in_err s r c e :
  add_char_in s r c = inl e -> exists m, e = CsvError m.
Proof.
  unfold add_char_in. destruct (parse_add_char r c) eqn:E; intros H; inversion H; subst.
  eapply parse_add_char_err; exact E.
Qed.

Lemma start_field_err r x e : start_field r x = inl e -> exists m, e = CsvError m.
Proof.
  unfold start_field. split_ifs; try (intros H; discriminate H).
  destruct x; [apply add_char_in_err|discriminate].
Qed.

Lemma parse_process_char_err r x e :
  parse_process_char r x = inl e -> exists m, e = CsvError m.
Proof.
  unfold parse_process_char.
  destruct (state r); split_ifs; intros H;
    try discriminate H;
    try (inversion H; eauto; fail);
    try (eapply start_field_err; exact H);
    try (eapply add_char_in_err; exact H);
    destruct x; try discriminate H; eapply add_char_in_err; exact H.
Qed.

Lemma feed_err r xs e : feed r xs = inl e -> exists m, e = CsvError m.
Proof.
  revert r. induction xs as [|x xs IH]; intros r; simpl; [discriminate|].
  destruct (parse_process_char r x) eqn:E; intros H.
  - inversion H; subst. eapply parse_process_char_err; exact E.
  - exact (IH _ H).
Qed.

Lemma read_records_err r lines e :
  snd (read_records r lines) = Some e -> exists m, e = CsvError m.
Proof.
  revert r. induction lines as [|l ls IH]; intros r; simpl.
  - destruct (_ || _); discriminate.
  - destruct (feed r (map Chr l ++ [EOL])) as [e'|r'] eqn:F; simpl.
    + intros H; inversion H; subst. eapply feed_err; exact F.
    + destruct (parse_state_eqb (state r') START_RECORD).
      * destruct (read_records parse_reset ls) as [recs err] eqn:R. simpl.
        intros H. apply (IH parse_reset). rewrite R. exact H.
      * apply IH.
Qed.

Lemma load_text_no_decode_error path text enc msg :
  load_text path text <> inl (UnicodeDecodeError enc msg).
Proof.
  unfold load_text, csv_reader.
  pose proof (read_records_err parse_reset (split_lines text)) as Herr.
  destruct (read_records parse_reset (split_lines text)) as [records err].
  simpl in Herr.
  destruct records as [|header data]; [|destruct (is_nil header)];
    try destruct err as [e|]; try discriminate;
    intros H; inversion H; subst; destruct (Herr _ eq_refl); discriminate.
Qed.

(** C10 (the decode-failure branch of [load_csv] is unreachable):
    ["latin-1"], the last encoding tried, decodes every byte sequence, so
    [load_csv] never raises its [UnicodeDecodeError]. *)
Theorem load_csv_never_decode_error path bytes :
  decode LATIN1 bytes = Some (map Byte.to_N bytes) /\
  forall enc msg, load_csv path bytes <> inl (UnicodeDecodeError enc msg).
Proof.
  split; [reflexivity|]. intros enc msg.
  unfold load_csv, load_with, ENCODINGS.
  destruct (decode UTF8_SIG bytes); [apply load_text_no_decode_error|].
  destruct (decode CP1252 bytes); [apply load_text_no_decode_error|].
  simpl. apply load_text_no_decode_error.
Qed.

(** C9 (atomicity of failure): when loading either file or inferring a
    column fails, [main] raises that exception having emitted no event at
    all: the output file is neither opened nor written. *)
Theorem main_setup_failure_no_output float_repr all_values available e :
  setup_fails float_repr all_values available e ->
  main float_repr all_values available = ([], inl e).
Proof.
  intros H; unfold main;
    destruct H as [e' L1|t e' L1 L2|fa ra fb rb e' L1 L2 N1
                  |fa ra fb rb c e' L1 L2 N1 N2|fa ra fb rb c c' e' L1 L2 N1 N2 P];
    rewrite L1; simpl; try reflexivity;
    rewrite L2; simpl; try reflexivity;
    rewrite N1; simpl; try reflexivity;
    rewrite N2; simpl; try reflexivity;
    rewrite P; reflexivity.
Qed.

Definition NL : string := String (ascii_of_nat 10) EmptyString.

(** The spec's failure scenario: a value-source file with no [Points]
    column and no numeric column. *)
Definition no_points_all_values : list byte :=
  bytes_of ("Name,Label" ++ NL ++ "Alpha,x" ++ NL)%string.
Definition one_available : list byte := bytes_of ("Name" ++ NL ++ "Alpha" ++ NL)%string.

Lemma main_setup_failure_no_output_witness :
  setup_fails float_repr_ascii no_points_all_values one_available POINTS_MISSING /\
  main float_repr_ascii no_points_all_values one_available = ([], inl POINTS_MISSING).
Proof.
  assert (Hs : setup_fails float_repr_ascii no_points_all_values one_available POINTS_MISSING).
  { eapply points_fails; vm_compute; reflexivity. }
  split; [exact Hs|]. exact (main_setup_failure_no_output _ _ _ _ Hs).
Defined.

Lemma load_with_decoded path bytes encs last :
  match first_decoding encs bytes with
  | Some text => load_with path bytes encs last = load_text path text
  | None => True
  end.
Proof.
  revert last. induction encs as [|e es IH]; intros last; simpl; [exact I|].
  destruct (decode e bytes); [reflexivity|apply IH].
Qed.

Lemma decoded_some bytes : exists text, decoded bytes = Some text.
Proof.
  unfold decoded, ENCODINGS, first_decoding.
  destruct (decode UTF8_SIG bytes); [eauto|].
  destruct (decode CP1252 bytes); [eauto|]. simpl. eauto.
Qed.

Lemma load_csv_decoded path bytes text :
  decoded bytes = Some text -> load_csv path bytes = load_text path text.
Proof.
  intros H. pose proof (load_with_decoded path bytes ENCODINGS None) as L.
  unfold decoded in H. rewrite H in L. exact L.
Qed.

Lemma csv_reader_leading_newline c rest :
  c = LF \/ c = CR -> exists data err, csv_reader (c :: rest) = ([] :: data, err).
Proof.
  intros Hc. unfold csv_reader, split_lines.
  destruct Hc as [->| ->].
  - cbn [split_lines_aux]. simpl.
    destruct (read_records parse_reset (split_lines_aux rest [])). eauto.
  - cbn [split_lines_aux]. destruct rest as [|c2 rest2].
    + simpl. eauto.
    + destruct (c2 =? LF)%N eqn:E.
      * apply N.eqb_eq in E. subst c2. simpl.
        destruct (read_records parse_reset (split_lines_aux rest2 [])). eauto.
      * simpl. rewrite E. simpl.
        match goal with |- context [read_records ?r ?ls] => destruct (read_records r ls) end.
        eauto.
Qed.

(** C7 (header requirement), as the code has it: the header row is the
    first record the CSV reader returns, each entry trimmed; when the
    file has no record, or its first record is empty (as for a file
    starting with a line break), the load fails with a [ValueError]. *)
Theorem load_csv_header path bytes :
  (forall fieldnames rows, load_csv path bytes = inr (fieldnames, rows) ->
     exists text header data,
       decoded bytes = Some text /\ fst (csv_reader text) = header :: data /\
       header <> [] /\ fieldnames = map strip header) /\
  (forall text, decoded bytes = Some text ->
     (csv_reader text = ([], None) \/ exists data err, csv_reader text = ([] :: data, err)) ->
     load_csv path bytes = inl (ValueError (path ++ u " has no header row."))) /\
  (forall c rest, c = LF \/ c = CR -> decoded bytes = Some (c :: rest) ->
     load_csv path bytes = inl (ValueError (path ++ u " has no header row."))).
Proof.
  assert (Hnohdr : forall text, decoded bytes = Some text ->
     (csv_reader text = ([], None) \/ exists data err, csv_reader text = ([] :: data, err)) ->
     load_csv path bytes = inl (ValueError (path ++ u " has no header row."))).
  { intros text Hd Hr. rewrite (load_csv_decoded _ _ _ Hd). unfold load_text.
    destruct Hr as [-> | [data [err ->]]]; reflexivity. }
  split; [|split; [exact Hnohdr|]].
  - intros fieldnames rows H. destruct (decoded_some bytes) as [text Hd].
    rewrite (load_csv_decoded _ _ _ Hd) in H. unfold load_text in H.
    destruct (csv_reader text) as [records err] eqn:R.
    destruct records as [|header data]; [destruct err; discriminate|].
    destruct (is_nil header) eqn:Hn; [discriminate|].
    destruct err; [discriminate|]. injection H as <- _.
    exists text, header, data. rewrite R. repeat split; auto.
    intros ->. discriminate.
  - intros c rest Hc Hd. apply (Hnohdr _ Hd). right.
    apply csv_reader_leading_newline. exact Hc.
Qed.

Definition blank_first_line : list byte :=
  bytes_of (NL ++ "Name" ++ NL ++ "Alpha" ++ NL)%string.

(** C7 fails as stated: a file whose first line is empty and whose first
    non-empty line is [Name] is refused for lack of a header. *)
Lemma load_csv_blank_first_line_refused :
  load_csv ALL_VALUES_PATH blank_first_line =
    inl (ValueError (ALL_VALUES_PATH ++ u " has no header row.")) /\
  ~ exists rows, load_csv ALL_VALUES_PATH blank_first_line = inr ([NAME], rows).
Proof.
  assert (H : load_csv ALL_VALUES_PATH blank_first_line =
              inl (ValueError (ALL_VALUES_PATH ++ u " has no header row."))).
  { vm_compute. reflexivity. }
  split; [exact H|]. intros [rows Hr]. rewrite H in Hr. discriminate.
Qed.

Section DictSetIncl.
Context {K V : Type}.
Variable K_eq_dec : forall a b : K, {a = b} + {a <> b}.

Lemma in_dict_set (k : K) (v : V) d kv :
  In kv (dict_set K_eq_dec k v d) -> kv = (k, v) \/ In kv d.
Proof.
  induction d as [|[k' v'] d IH]; simpl.
  - intuition.
  - destruct (K_eq_dec k k') as [->|Hne]; simpl; [intuition|].
    intros [H|H]; [right; left; exact H|]. destruct (IH H); auto.
Qed.

(** Every entry of a dict filled by [d[fst (f x)] = snd (f x)] for
    [x] in [xs] comes from [d] or from some [f x]. *)
Lemma in_fold_dict_set {A} (f : A -> K * V) (P : K * V -> Prop) xs d :
  (forall kv, In kv d -> P kv) -> (forall x, In x xs -> P (f x)) ->
  forall kv, In kv (fold_left (fun d x => dict_set K_eq_dec (fst (f x)) (snd (f x)) d) xs d) ->
  P kv.
Proof.
  revert d. induction xs as [|x xs IH]; intros d Hd Hx; simpl; [exact Hd|].
  apply IH; [|intros y Hy; apply Hx; right; exact Hy].
  intros kv Hkv. apply in_dict_set in Hkv. destruct Hkv as [->|Hkv]; [|exact (Hd _ Hkv)].
  rewrite <- surjective_pairing. apply Hx. left. reflexivity.
Qed.
End DictSetIncl.

Lemma in_skipn {A} n (l : list A) x : In x (skipn n l) -> In x l.
Proof.
  intros H. rewrite <- (firstn_skipn n l). apply in_or_app. right. exact H.
Qed.

Lemma make_dict_row_keys fieldnames row kv :
  In kv (entries (make_dict_row fieldnames row)) -> In (fst kv) fieldnames.
Proof.
  unfold make_dict_row.
  set (d := fold_left _ (combine fieldnames row) []).
  assert (Hd : forall kv, In kv d -> In (fst kv) fieldnames).
  { apply (in_fold_dict_set str_eq_dec (fun kv => (fst kv, Some (snd kv))));
      [intros ? []|]. intros [a b] Hab. simpl. exact (in_combine_l _ _ _ _ Hab). }
  destruct (_ <? _); [exact (Hd kv)|].
  destruct (_ <? _); [|exact (Hd kv)]. simpl.
  revert kv. apply (in_fold_dict_set str_eq_dec (fun k => (k, None))); [exact Hd|].
  intros x Hx. exact (in_skipn _ _ _ Hx).
Qed.


Definition blank_points_all_values : list byte :=
  bytes_of ("Name,Points" ++ NL ++ "Alpha," ++ NL)%string.

(** C4 at [AllValues.csv] = [Name,Points / Alpha,] and [Available.csv] =
    [Name / Alpha]: [Alpha] is in the index (with a blank points value),
    yet [main] records it as missing and reports it as not found. *)
Lemma main_blank_points_reported_missing :
  load_csv ALL_VALUES_PATH blank_points_all_values =
    inr ([NAME; POINTS], [[(NAME, Some (u "Alpha")); (POINTS, Some EMPTY)]]) /\
  dict_mem cell_eq_dec (Some (u "Alpha"))
    (fst (build_index [[(NAME, Some (u "Alpha")); (POINTS, Some EMPTY)]] NAME POINTS)) = true /\
  main float_repr_ascii blank_points_all_values one_available =
    ([EvOpenOutput OUTPUT_PATH; EvWriteHeader [NAME; POINTS];
      EvWriteRow [(NAME, Some (u "Alpha")); (POINTS, Some EMPTY)];
      EvCloseOutput;
      EvPrint (u "WARNING: " ++ MISSING_PREFIX ++ u ": Alpha");
      EvPrint (u "Wrote AvailableWithPoints.csv with 1 rows.")], inr tt).
Proof. split; [|split]; vm_compute; reflexivity. Qed.

(** * Further properties of the script *)

(** The events of [warn_list] when every item is a [str]. *)
Definition warning_lines (prefix : str) (values : list cell) : list event :=
  match values with
  | [] => []
  | _ => [EvPrint (u "WARNING: " ++ prefix ++ u ": "
                   ++ str_join (u ", ")
                        (flat_map (fun v => match v with Some s => [s] | None => [] end) values))]
  end.

Lemma join_items_strs i ss :
  join_items i (map Some ss) = inr ss.
Proof.
  revert i. induction ss as [|s ss IH]; intros i; simpl; [reflexivity|].
  rewrite IH. reflexivity.
Qed.

Lemma join_items_none i (values : list cell) :
  In None values -> exists msg, join_items i values = inl (TypeError msg).
Proof.
  revert i. induction values as [|v values IH]; intros i H; simpl in H |- *; [contradiction|].
  destruct v as [s|].
  - destruct H as [H|H]; [discriminate|]. destruct (IH (S i) H) as [msg ->]. eauto.
  - eauto.
Qed.

Lemma join_items_type_error i values e :
  join_items i values = inl e -> exists msg, e = TypeError msg.
Proof.
  revert i. induction values as [|v values IH]; intros i; simpl; [discriminate|].
  destruct v as [s|].
  - destruct (join_items (S i) values) eqn:J; intros H; inversion H; subst. eapply IH; exact J.
  - intros H; inversion H; eauto.
Qed.

Lemma flat_map_some_strs (values : list cell) :
  (forall x, In x values -> x <> None) ->
  values = map Some (flat_map (fun v => match v with Some s => [s] | None => [] end) values).
Proof.
  induction values as [|v values IH]; intros H; simpl; [reflexivity|].
  destruct v as [s|]; [|exfalso; apply (H None); [left|]; reflexivity].
  simpl. rewrite <- IH; [reflexivity|]. intros x Hx. apply H. right. exact Hx.
Qed.

Lemma warn_list_strs prefix values :
  (forall x, In x values -> x <> None) ->
  warn_list prefix values = (warning_lines prefix values, inr tt).
Proof.
  intros H. pose proof (flat_map_some_strs values H) as Hv.
  unfold warn_list, warning_lines.
  set (ss := flat_map (fun v => match v with Some s => [s] | None => [] end) values) in *.
  replace (join_items 0 values) with (inr ss : result (list str))
    by (rewrite Hv at 1; rewrite join_items_strs; reflexivity).
  destruct values; reflexivity.
Qed.

(** [warn_list] prints nothing for an empty list; for a list of [str]s
    it prints the one line ["WARNING: prefix: a, b, ..."]; a [None] item
    makes [", ".join] raise [TypeError] before anything is printed. *)
Theorem warn_list_behaviour prefix values :
  (values = [] -> warn_list prefix values = ([], inr tt)) /\
  (forall ss, values = map Some ss -> ss <> [] ->
     warn_list prefix values =
       ([EvPrint (u "WARNING: " ++ prefix ++ u ": " ++ str_join (u ", ") ss)], inr tt)) /\
  (In None values -> exists msg, warn_list prefix values = ([], inl (TypeError msg))).
Proof.
  split; [|split].
  - intros ->. reflexivity.
  - intros ss -> Hne. unfold warn_list. rewrite join_items_strs.
    destruct ss; [contradiction|reflexivity].
  - intros H. unfold warn_list. destruct (join_items_none 0 values H) as [msg Hm].
    rewrite Hm. destruct values; [contradiction|]. exists msg. reflexivity.
Qed.

Lemma combine_firstn_length {A B} (l : list A) (r : list B) :
  combine l r = combine l (firstn (List.length l) r).
Proof.
  revert r. induction l as [|a l IH]; intros r; [reflexivity|].
  destruct r as [|b r]; [reflexivity|]. simpl. f_equal. apply IH.
Qed.

(** Cells beyond the header are dropped: a row's table entry is the same
    as for the record cut to the header's length. *)
Theorem clean_row_extra_cells_dropped header record :
  clean_row (make_dict_row header record) =
  clean_row (make_dict_row header (firstn (List.length header) record)).
Proof.
  destruct (Nat.le_gt_cases (List.length record) (List.length header)) as [Hle|Hgt].
  - rewrite firstn_all2 by exact Hle. reflexivity.
  - unfold make_dict_row. rewrite <- combine_firstn_length.
    rewrite length_firstn, Nat.min_l by lia.
    rewrite (proj2 (Nat.ltb_lt _ _) Hgt), Nat.ltb_irrefl. reflexivity.
Qed.

Lemma bind_inr {A B} (ev : list event) (a : A) (k : A -> M B) :
  bind (ev, inr a) k = (ev ++ fst (k a), snd (k a)).
Proof. simpl. destruct (k a). reflexivity. Qed.

Lemma bind_lift_inr {A B} (a : A) (k : A -> M B) : bind (lift (inr a)) k = k a.
Proof. unfold bind, lift. destruct (k a). reflexivity. Qed.

Lemma bind_lift_inl {A B} (e : exn) (k : A -> M B) : bind (lift (inl e)) k = ([], inl e).
Proof. reflexivity. Qed.

Lemma bind_emit {B} (e : event) (k : unit -> M B) :
  bind (emit e) k = (e :: fst (k tt), snd (k tt)).
Proof. unfold bind, emit. destruct (k tt). reflexivity. Qed.

Lemma write_rows_events (rows : list (list (str * cell))) :
  fold_right (fun row k => emit (EvWriteRow row) ;;; k) (ret tt) rows =
  (map EvWriteRow rows, inr tt).
Proof.
  induction rows as [|row rows IH]; [reflexivity|]. cbn [fold_right]. rewrite IH. reflexivity.
Qed.

Lemma warn_list_cases prefix values :
  (exists l, warn_list prefix values = (l, inr tt)) \/
  (exists msg, warn_list prefix values = ([], inl (TypeError msg))).
Proof.
  unfold warn_list. destruct (is_nil values); [left; eexists; reflexivity|].
  destruct (join_items 0 values) as [e|ss] eqn:J.
  - right. destruct (join_items_type_error _ _ _ J) as [msg ->]. eexists. reflexivity.
  - left. eexists. reflexivity.
Qed.

Lemma join_output_length all_rows nc pc avail anc dups out missing :
  join all_rows nc pc avail anc = (dups, out, missing) -> List.length out = List.length avail.
Proof.
  unfold join. destruct (build_index all_rows nc pc) as [pbn d].
  unfold probe. rewrite probe_fold. intros H. injection H as _ <- _.
  simpl. apply length_map.
Qed.

(** When loading and column inference succeed and the deduplicated
    diagnostics hold only [str]s, [main] opens the output, writes the
    header and one row per joined row, closes it, prints the duplicate
    warning, then the missing warning (each only when non-empty), then
    the completion line with the number of available-items rows. *)
Theorem main_success_events float_repr all_values available fa ra fb rb
  all_name_column available_name_column points_column dups out missing :
  load_csv ALL_VALUES_PATH all_values = inr (fa, ra) ->
  load_csv AVAILABLE_PATH available = inr (fb, rb) ->
  find_name_column fa ALL_VALUES_PATH = inr all_name_column ->
  find_name_column fb AVAILABLE_PATH = inr available_name_column ->
  find_points_column float_repr fa ra = inr points_column ->
  join ra all_name_column points_column rb available_name_column = (dups, out, missing) ->
  (forall x, In x (dedup dups) -> x <> None) ->
  (forall x, In x (dedup missing) -> x <> None) ->
  main float_repr all_values available =
  ([EvOpenOutput OUTPUT_PATH; EvWriteHeader [NAME; POINTS]]
   ++ map EvWriteRow out ++ [EvCloseOutput]
   ++ warning_lines DUPLICATE_PREFIX (dedup dups)
   ++ warning_lines MISSING_PREFIX (dedup missing)
   ++ [EvPrint (u "Wrote " ++ OUTPUT_PATH ++ u " with "
                ++ nat_to_str (List.length rb) ++ u " rows.")], inr tt).
Proof.
  intros L1 L2 N1 N2 P J Hd Hm.
  rewrite <- (join_output_length _ _ _ _ _ _ _ _ J).
  unfold main. rewrite L1, bind_lift_inr, L2, bind_lift_inr. cbv beta iota zeta.
  rewrite N1, bind_lift_inr, N2, bind_lift_inr, P, bind_lift_inr, J. cbv beta iota zeta.
  rewrite ?bind_emit, write_rows_events, bind_inr, ?bind_emit.
  rewrite (warn_list_strs _ _ Hd), bind_inr, (warn_list_strs _ _ Hm), bind_inr.
  cbn [fst snd emit app]. reflexivity.
Qed.

Definition spec_all_values : list byte :=
  bytes_of ("Name,Points" ++ NL ++ "Alpha,10" ++ NL ++ "Beta,20" ++ NL ++ "Alpha,99" ++ NL)%string.
Definition spec_available : list byte :=
  bytes_of ("Name" ++ NL ++ "Beta" ++ NL ++ "Gamma" ++ NL)%string.

Definition spec_all_rows : list (list (str * cell)) :=
  [[(NAME, Some (u "Alpha")); (POINTS, Some (u "10"))];
   [(NAME, Some (u "Beta")); (POINTS, Some (u "20"))];
   [(NAME, Some (u "Alpha")); (POINTS, Some (u "99"))]].
Definition spec_available_rows : list (list (str * cell)) :=
  [[(NAME, Some (u "Beta"))]; [(NAME, Some (u "Gamma"))]].
Definition spec_output_rows : list (list (str * cell)) :=
  [[(NAME, Some (u "Beta")); (POINTS, Some (u "20"))];
   [(NAME, Some (u "Gamma")); (POINTS, Some EMPTY)]].

Lemma main_success_events_witness :
  main float_repr_ascii spec_all_values spec_available =
  ([EvOpenOutput OUTPUT_PATH; EvWriteHeader [NAME; POINTS]]
   ++ map EvWriteRow spec_output_rows ++ [EvCloseOutput]
   ++ warning_lines DUPLICATE_PREFIX (dedup [Some (u "Alpha")])
   ++ warning_lines MISSING_PREFIX (dedup [Some (u "Gamma")])
   ++ [EvPrint (u "Wrote " ++ OUTPUT_PATH ++ u " with "
                ++ nat_to_str (List.length spec_available_rows) ++ u " rows.")],
   inr tt).
Proof.
  apply (main_success_events float_repr_ascii spec_all_values spec_available
           [NAME; POINTS] spec_all_rows [NAME] spec_available_rows NAME NAME POINTS
           [Some (u "Alpha")] spec_output_rows [Some (u "Gamma")]);
    [vm_compute; reflexivity ..| |];
    intros x Hx; vm_compute in Hx; destruct Hx as [<-|[]]; discriminate.
Defined.

Lemma join_items_map_some i (values : list cell) ss :
  join_items i values = inr ss -> values = map Some ss.
Proof.
  revert i ss. induction values as [|[s|] values IH]; intros i ss; simpl.
  - intros H. injection H as <-. reflexivity.
  - destruct (join_items (S i) values) as [e|ss'] eqn:J; [discriminate|].
    intros H. injection H as <-. simpl. rewrite (IH _ _ J). reflexivity.
  - discriminate.
Qed.

Lemma flat_map_map_some (ss : list str) :
  flat_map (fun v => match v with Some s => [s] | None => [] end) (map Some ss) = ss.
Proof. induction ss as [|x ss IH]; [reflexivity|simpl; rewrite IH; reflexivity]. Qed.

Lemma warn_list_ok prefix values l :
  warn_list prefix values = (l, inr tt) -> l = warning_lines prefix values.
Proof.
  intros H. unfold warn_list in H.
  destruct values as [|v vs]; [injection H as <-; reflexivity|]. cbn [is_nil] in H.
  destruct (join_items 0 (v :: vs)) as [e|ss] eqn:J; [discriminate|].
  unfold emit in H. injection H as <-.
  pose proof (join_items_map_some _ _ _ J) as Hm.
  destruct ss as [|s ss']; [discriminate Hm|]. rewrite Hm.
  unfold warning_lines. rewrite flat_map_map_some. reflexivity.
Qed.

(** [main] never leaves a partial output file: either it fails before
    emitting anything (loading or inference), or loading and inference
    succeeded, the output file got the header and every joined row and
    was closed, at most the duplicate warning was printed, and then
    [warn_list] raised a [TypeError]. *)
Theorem main_failure_shape float_repr all_values available evs e :
  main float_repr all_values available = (evs, inl e) ->
  evs = [] \/
  exists fa ra fb rb nc anc pc dups out missing rest msg,
    load_csv ALL_VALUES_PATH all_values = inr (fa, ra) /\
    load_csv AVAILABLE_PATH available = inr (fb, rb) /\
    find_name_column fa ALL_VALUES_PATH = inr nc /\
    find_name_column fb AVAILABLE_PATH = inr anc /\
    find_points_column float_repr fa ra = inr pc /\
    join ra nc pc rb anc = (dups, out, missing) /\
    (rest = [] \/ rest = warning_lines DUPLICATE_PREFIX (dedup dups)) /\
    evs = EvOpenOutput OUTPUT_PATH :: EvWriteHeader [NAME; POINTS]
          :: map EvWriteRow out ++ EvCloseOutput :: rest /\
    e = TypeError msg.
Proof.
  unfold main.
  destruct (load_csv ALL_VALUES_PATH all_values) as [e1|[fa ra]] eqn:L1;
    [rewrite bind_lift_inl; intros H; injection H as <- _; left; reflexivity|].
  rewrite bind_lift_inr.
  destruct (load_csv AVAILABLE_PATH available) as [e2|[fb rb]] eqn:L2;
    [rewrite bind_lift_inl; intros H; injection H as <- _; left; reflexivity|].
  rewrite bind_lift_inr. cbv beta iota zeta.
  destruct (find_name_column fa ALL_VALUES_PATH) as [e3|nc] eqn:N1;
    [rewrite bind_lift_inl; intros H; injection H as <- _; left; reflexivity|].
  rewrite bind_lift_inr.
  destruct (find_name_column fb AVAILABLE_PATH) as [e4|anc] eqn:N2;
    [rewrite bind_lift_inl; intros H; injection H as <- _; left; reflexivity|].
  rewrite bind_lift_inr.
  destruct (find_points_column float_repr fa ra) as [e5|pc] eqn:P;
    [rewrite bind_lift_inl; intros H; injection H as <- _; left; reflexivity|].
  rewrite bind_lift_inr.
  destruct (join ra nc pc rb anc) as [[dups out] missing] eqn:J. cbv beta iota zeta.
  rewrite ?bind_emit, write_rows_events, bind_inr, ?bind_emit.
  intros H. right.
  destruct (warn_list_cases DUPLICATE_PREFIX (dedup dups)) as [[l1 W1]|[m1 W1]];
    rewrite W1 in H.
  - rewrite bind_inr in H.
    destruct (warn_list_cases MISSING_PREFIX (dedup missing)) as [[l2 W2]|[m2 W2]];
      rewrite W2 in H; cbn [fst snd emit bind] in H; [discriminate|].
    injection H as <- <-.
    exists fa, ra, fb, rb, nc, anc, pc, dups, out, missing, l1, m2.
    repeat split; try assumption.
    + right. exact (warn_list_ok _ _ _ W1).
    + rewrite app_nil_r. reflexivity.
  - cbn [fst snd bind] in H. injection H as <- <-.
    exists fa, ra, fb, rb, nc, anc, pc, dups, out, missing, [], m1.
    repeat split; try assumption. left. reflexivity.
Qed.

(** An available-items row too short to have a name cell: its name is
    [None], which is reported as missing and makes the warning raise. *)
Definition short_name_available : list byte :=
  bytes_of ("ID,Name" ++ NL ++ "7" ++ NL)%string.

Definition short_name_events : list event :=
  [EvOpenOutput OUTPUT_PATH; EvWriteHeader [NAME; POINTS];
   EvWriteRow [(NAME, None); (POINTS, Some EMPTY)]; EvCloseOutput;
   EvPrint (u "WARNING: " ++ DUPLICATE_PREFIX ++ u ": Alpha")].

Definition short_name_error : exn :=
  TypeError (u "sequence item 0: expected str instance, NoneType found").

Lemma main_failure_shape_witness :
  main float_repr_ascii spec_all_values short_name_available =
    (short_name_events, inl short_name_error) /\
  (short_name_events = [] \/
   exists fa ra fb rb nc anc pc dups out missing rest msg,
     load_csv ALL_VALUES_PATH spec_all_values = inr (fa, ra) /\
     load_csv AVAILABLE_PATH short_name_available = inr (fb, rb) /\
     find_name_column fa ALL_VALUES_PATH = inr nc /\
     find_name_column fb AVAILABLE_PATH = inr anc /\
     find_points_column float_repr_ascii fa ra = inr pc /\
     join ra nc pc rb anc = (dups, out, missing) /\
     (rest = [] \/ rest = warning_lines DUPLICATE_PREFIX (dedup dups)) /\
     short_name_events = EvOpenOutput OUTPUT_PATH :: EvWriteHeader [NAME; POINTS]
                         :: map EvWriteRow out ++ EvCloseOutput :: rest /\
     short_name_error = TypeError msg).
Proof.
  assert (H : main float_repr_ascii spec_all_values short_name_available =
              (short_name_events, inl short_name_error)) by (vm_compute; reflexivity).
  split; [exact H|]. exact (main_failure_shape _ _ _ _ _ H).
Defined.

Lemma utf8_sig_decode_no_bom (bs : list byte) :
  firstn 3 bs <> [xef; xbb; xbf] ->
  utf8_sig_decode (map Byte.to_N bs) = utf8_decode (map Byte.to_N bs).
Proof.
  intros H. destruct bs as [|b0 [|b1 [|b2 r]]]; [reflexivity| | |].
  - destruct b0; reflexivity.
  - destruct b0; try reflexivity. destruct b1; reflexivity.
  - destruct b0; try reflexivity. destruct b1; try reflexivity.
    destruct b2; try reflexivity. contradiction H. reflexivity.
Qed.

(** [load_csv] on UTF-8 text: a file whose bytes, after at most one
    leading byte order mark, are valid UTF-8 is read as that UTF-8 text,
    the mark dropped; the other encodings are not tried. *)
Theorem load_csv_utf8 path bs text :
  utf8_decode (map Byte.to_N bs) = Some text ->
  load_csv path (xef :: xbb :: xbf :: bs) = load_text path text /\
  (firstn 3 bs <> [xef; xbb; xbf] -> load_csv path bs = load_text path text).
Proof.
  intros H. split.
  - apply load_csv_decoded. unfold decoded, ENCODINGS, first_decoding, decode. simpl.
    rewrite H. reflexivity.
  - intros Hb. apply load_csv_decoded. unfold decoded, ENCODINGS, first_decoding, decode.
    cbv beta iota zeta.
    rewrite (utf8_sig_decode_no_bom _ Hb), H. reflexivity.
Qed.

(** [Name / Café] in UTF-8: cp1252 would also decode these bytes (as
    [CafÃ©]), but UTF-8 comes first. *)
Definition cafe_utf8 : list byte :=
  bytes_of ("Name" ++ NL ++ "Caf")%string ++ [xc3; xa9] ++ bytes_of NL.

Definition cafe_text : str := u ("Name" ++ NL ++ "Caf")%string ++ [233%N] ++ u NL.

Lemma load_csv_utf8_witness :
  utf8_decode (map Byte.to_N cafe_utf8) = Some cafe_text /\
  load_csv ALL_VALUES_PATH (xef :: xbb :: xbf :: cafe_utf8) = load_text ALL_VALUES_PATH cafe_text /\
  (firstn 3 cafe_utf8 <> [xef; xbb; xbf] ->
   load_csv ALL_VALUES_PATH cafe_utf8 = load_text ALL_VALUES_PATH cafe_text).
Proof.
  assert (H : utf8_decode (map Byte.to_N cafe_utf8) = Some cafe_text)
    by (vm_compute; reflexivity).
  split; [exact H|]. exact (load_csv_utf8 ALL_VALUES_PATH _ _ H).
Defined.

Lemma cp1252_decode_undefined (bs : list N) b :
  In b bs -> cp1252_char b = None -> cp1252_decode bs = None.
Proof.
  intros Hin Hb. induction bs as [|c bs IH]; [destruct Hin|]. simpl.
  destruct Hin as [->|Hin].
  - rewrite Hb. reflexivity.
  - rewrite (IH Hin). destruct (cp1252_char c); reflexivity.
Qed.

(** The Latin-1 fallback of [load_csv]: a file that is not valid UTF-8
    (after an optional byte order mark) and holds one of the bytes 0x81,
    0x8D, 0x8F, 0x90, 0x9D, which cp1252 leaves undefined, is read byte
    for byte, each byte the character of the same code. *)
Theorem load_csv_latin1_fallback path bs :
  utf8_sig_decode (map Byte.to_N bs) = None ->
  (exists b, In b bs /\ In b [x81; x8d; x8f; x90; x9d]) ->
  load_csv path bs = load_text path (map Byte.to_N bs).
Proof.
  intros Hu [b [Hin Hb]]. apply load_csv_decoded.
  unfold decoded, ENCODINGS, first_decoding, decode. cbv beta iota zeta. rewrite Hu.
  rewrite (cp1252_decode_undefined _ (Byte.to_N b)); [reflexivity|apply in_map; exact Hin|].
  destruct Hb as [<-|[<-|[<-|[<-|[<-|[]]]]]]; reflexivity.
Qed.

(** A value row holding the byte 0x81, invalid in UTF-8 and undefined in
    cp1252. *)
Definition undefined_cp1252_byte : list byte :=
  bytes_of ("Name" ++ NL ++ "A")%string ++ [x81] ++ bytes_of NL.

Lemma load_csv_latin1_fallback_witness :
  utf8_sig_decode (map Byte.to_N undefined_cp1252_byte) = None /\
  load_csv ALL_VALUES_PATH undefined_cp1252_byte =
    load_text ALL_VALUES_PATH (map Byte.to_N undefined_cp1252_byte).
Proof.
  assert (H : utf8_sig_decode (map Byte.to_N undefined_cp1252_byte) = None)
    by (vm_compute; reflexivity).
  split; [exact H|]. apply (load_csv_latin1_fallback ALL_VALUES_PATH _ H).
  exists x81. split; [vm_compute; tauto|left; reflexivity].
Defined.

(** The names [main] reports as missing: in order and with repeats, the
    names of the available rows whose name has no value row, or whose
    first value row's points value is the empty string. *)
Theorem join_missing_names all_rows all_name_column points_column
  available_rows available_name_column :
  let '(_, _, missing_names) :=
    join all_rows all_name_column points_column available_rows available_name_column in
  missing_names =
  map (fun r => row_get r available_name_column)
    (filter (fun r => cell_eqb (first_points all_rows all_name_column points_column
                                  (row_get r available_name_column)) (Some EMPTY))
       available_rows).
Proof.
  unfold join.
  pose proof (index_get_first_points all_rows all_name_column points_column) as Hg.
  destruct (build_index all_rows all_name_column points_column) as [pbn dups].
  simpl in Hg. unfold probe. rewrite probe_fold. simpl.
  induction available_rows as [|r rs IH]; [reflexivity|]. simpl.
  rewrite Hg, IH. destruct (cell_eqb _ (Some EMPTY)); reflexivity.
Qed.

Section DictFold.
Context {A K V : Type}.
Variable K_eq_dec : forall a b : K, {a = b} + {a <> b}.

(** A dict filled by [d[key x] = val x] for [x] in [xs]: the last write
    to a key wins. *)
Lemma dict_lookup_fold_set (key : A -> K) (val : A -> V) xs d k :
  dict_lookup K_eq_dec k (fold_left (fun d x => dict_set K_eq_dec (key x) (val x) d) xs d) =
  match find (fun x => if K_eq_dec (key x) k then true else false) (rev xs) with
  | Some x => Some (val x)
  | None => dict_lookup K_eq_dec k d
  end.
Proof.
  revert d. induction xs as [|x xs IH]; intros d; [reflexivity|].
  simpl. rewrite IH, find_app_single. destruct (find _ (rev xs)); [reflexivity|].
  destruct (K_eq_dec (key x) k) as [<-|Hne].
  - apply dict_lookup_set_eq.
  - apply dict_lookup_set_neq. exact Hne.
Qed.

Lemma dict_lookup_in (k : K) (v : V) d :
  dict_lookup K_eq_dec k d = Some v -> In (k, v) d.
Proof.
  induction d as [|[k' v'] d IH]; simpl; [discriminate|].
  destruct (K_eq_dec k k') as [->|Hne]; intros H.
  - injection H as ->. left. reflexivity.
  - right. exact (IH H).
Qed.

Lemma dict_lookup_nodup_in (k : K) (v : V) d :
  NoDup (map fst d) -> In (k, v) d -> dict_lookup K_eq_dec k d = Some v.
Proof.
  induction d as [|[k' v'] d IH]; simpl; [intros _ []|].
  intros Hn Hin. inversion Hn as [|? ? Hk Hn']; subst.
  destruct (K_eq_dec k k') as [->|Hne].
  - destruct Hin as [Hin|Hin]; [inversion Hin; reflexivity|].
    exfalso. apply Hk. exact (in_map fst _ _ Hin).
  - destruct Hin as [Hin|Hin]; [inversion Hin; subst; contradiction|].
    exact (IH Hn' Hin).
Qed.

Lemma dict_set_nodup (k : K) (v : V) d :
  NoDup (map fst d) -> NoDup (map fst (dict_set K_eq_dec k v d)).
Proof.
  intros Hn. rewrite dict_set_keys. destruct (dict_mem K_eq_dec k d) eqn:Hm; [exact Hn|].
  apply NoDup_app; [exact Hn|constructor; [intros []|constructor]|].
  intros a Ha [<-|[]]. apply (dict_mem_in_keys K_eq_dec) in Ha. congruence.
Qed.

Lemma fold_dict_set_nodup (key : A -> K) (val : A -> V) xs d :
  NoDup (map fst d) ->
  NoDup (map fst (fold_left (fun d x => dict_set K_eq_dec (key x) (val x) d) xs d)).
Proof.
  revert d. induction xs as [|x xs IH]; intros d Hn; [exact Hn|].
  simpl. apply IH, dict_set_nodup, Hn.
Qed.
End DictFold.

Lemma combine_key_unique {A B} (hs : list A) (rs : list B) i h x :
  NoDup hs -> nth_error hs i = Some h -> In x (combine hs rs) -> fst x = h ->
  nth_error rs i = Some (snd x).
Proof.
  revert i rs. induction hs as [|a hs IH]; intros i rs Hn Hi Hx Hf;
    [destruct i; discriminate|].
  destruct rs as [|b rs]; [destruct Hx|].
  apply NoDup_cons_iff in Hn as [Ha Hn']. simpl in Hx.
  destruct i as [|i]; simpl in Hi |- *.
  - injection Hi as <-. destruct Hx as [<-|Hx]; [reflexivity|].
    exfalso. destruct x as [x1 x2]. simpl in Hf. subst.
    exact (Ha (in_combine_l _ _ _ _ Hx)).
  - destruct Hx as [<-|Hx].
    + simpl in Hf. subst. exfalso. apply Ha. exact (nth_error_In _ _ Hi).
    + exact (IH i rs Hn' Hi Hx Hf).
Qed.

Lemma combine_nth_in {A B} (hs : list A) (rs : list B) i h c :
  nth_error hs i = Some h -> nth_error rs i = Some c -> In (h, c) (combine hs rs).
Proof.
  revert i rs. induction hs as [|a hs IH]; intros i rs Hi Hc;
    [destruct i; discriminate|].
  destruct rs as [|b rs]; [destruct i; discriminate|].
  destruct i as [|i]; simpl in Hi, Hc |- *.
  - injection Hi as <-. injection Hc as <-. left. reflexivity.
  - right. exact (IH i rs Hi Hc).
Qed.

Lemma nodup_nth_not_in_skipn {A} (l : list A) n i x :
  NoDup l -> nth_error l i = Some x -> i < n -> ~ In x (skipn n l).
Proof.
  revert n i. induction l as [|a l IH]; intros n i Hn Hi Hlt;
    [destruct i; discriminate|].
  destruct n as [|n]; [lia|]. simpl. inversion Hn as [|? ? Ha Hn']; subst.
  destruct i as [|i]; simpl in Hi.
  - injection Hi as <-. intros Hs. apply Ha. exact (in_skipn _ _ _ Hs).
  - apply (IH n i Hn' Hi). lia.
Qed.

Lemma nth_in_skipn {A} (l : list A) n i x :
  nth_error l i = Some x -> n <= i -> In x (skipn n l).
Proof.
  intros Hi Hle. apply (nth_error_In _ (i - n)). rewrite nth_error_skipn.
  replace (n + (i - n)) with i by lia. exact Hi.
Qed.

Lemma nodup_map_inj {A B} (f : A -> B) l a b :
  NoDup (map f l) -> In a l -> In b l -> f a = f b -> a = b.
Proof.
  induction l as [|x l IH]; simpl; [intros _ []|].
  intros Hn Ha Hb Hf. inversion Hn as [|? ? Hx Hn']; subst.
  destruct Ha as [<-|Ha], Hb as [<-|Hb]; [reflexivity| | |exact (IH Hn' Ha Hb Hf)].
  - exfalso. apply Hx. rewrite Hf. apply in_map. exact Hb.
  - exfalso. apply Hx. rewrite <- Hf. apply in_map. exact Ha.
Qed.

Lemma make_dict_row_nodup fieldnames row :
  NoDup (map fst (entries (make_dict_row fieldnames row))).
Proof.
  unfold make_dict_row. cbv zeta.
  destruct (_ <? _); [|destruct (_ <? _)]; cbn [entries];
    repeat apply fold_dict_set_nodup; constructor.
Qed.

Lemma combine_fold_lookup (hs rs : list str) i h :
  NoDup hs -> nth_error hs i = Some h ->
  dict_lookup str_eq_dec h
    (fold_left (fun d kv => dict_set str_eq_dec (fst kv) (Some (snd kv)) d) (combine hs rs) [])
  = option_map Some (nth_error rs i).
Proof.
  intros Hn Hi. rewrite (dict_lookup_fold_set str_eq_dec).
  destruct (find _ (rev (combine hs rs))) as [x|] eqn:F.
  - apply find_some in F. destruct F as [Hx Hp]. apply in_rev in Hx.
    destruct (str_eq_dec (fst x) h) as [Hf|]; [|discriminate].
    rewrite (combine_key_unique _ _ _ _ _ Hn Hi Hx Hf). reflexivity.
  - destruct (nth_error rs i) as [c|] eqn:Hc; [|reflexivity]. exfalso.
    assert (Hin : In (h, c) (rev (combine hs rs)))
      by (rewrite <- in_rev; exact (combine_nth_in _ _ _ _ _ Hi Hc)).
    pose proof (find_none _ _ F _ Hin) as Hf. simpl in Hf.
    destruct (str_eq_dec h h); [discriminate|congruence].
Qed.

(** [dict(zip(fieldnames, row))] with [restval]: the key of column [i]
    holds the row's [i]-th cell, or [None] when the row is shorter. *)
Lemma make_dict_row_lookup hs rs i h :
  NoDup hs -> nth_error hs i = Some h ->
  dict_lookup str_eq_dec h (entries (make_dict_row hs rs)) = Some (nth_error rs i).
Proof.
  intros Hn Hi. assert (Hlt : i < List.length hs) by (apply nth_error_Some; congruence).
  pose proof (combine_fold_lookup hs rs i h Hn Hi) as Hd.
  unfold make_dict_row. cbv zeta.
  set (d := fold_left _ (combine hs rs) []) in *.
  destruct (Nat.ltb_spec (List.length hs) (List.length rs)) as [H1|H1].
  - cbn [entries]. rewrite Hd. destruct (nth_error rs i) eqn:E; [reflexivity|].
    apply nth_error_None in E. lia.
  - destruct (Nat.ltb_spec (List.length rs) (List.length hs)) as [H2|H2]; cbn [entries].
    + rewrite (dict_lookup_fold_set str_eq_dec).
      destruct (Nat.lt_ge_cases i (List.length rs)) as [Hi'|Hi'].
      * destruct (find _ _) as [x|] eqn:F.
        { exfalso. apply find_some in F. destruct F as [Hx Hp]. apply in_rev in Hx.
          destruct (str_eq_dec x h) as [->|]; [|discriminate].
          exact (nodup_nth_not_in_skipn _ _ _ _ Hn Hi Hi' Hx). }
        rewrite Hd. destruct (nth_error rs i) eqn:E; [reflexivity|].
        apply nth_error_None in E. lia.
      * assert (E : nth_error rs i = None) by (apply nth_error_None; lia). rewrite E.
        destruct (find _ _) as [x|] eqn:F; [reflexivity|]. exfalso.
        assert (Hin : In h (rev (skipn (List.length rs) hs)))
          by (rewrite <- in_rev; exact (nth_in_skipn _ _ _ _ Hi Hi')).
        pose proof (find_none _ _ F _ Hin) as Hf. cbv beta in Hf.
        destruct (str_eq_dec h h); [discriminate|congruence].
    + rewrite Hd. destruct (nth_error rs i) eqn:E; [reflexivity|].
      apply nth_error_None in E. lia.
Qed.

Lemma clean_row_cell header record i h :
  NoDup (map strip header) -> nth_error header i = Some h ->
  dict_lookup str_eq_dec (strip h) (clean_row (make_dict_row header record)) =
  Some (option_map strip (nth_error record i)).
Proof.
  intros Hn Hi. pose proof (NoDup_map_inv _ _ Hn) as Hn'.
  pose proof (make_dict_row_lookup _ record _ _ Hn' Hi) as Hl.
  unfold clean_row. rewrite (dict_lookup_fold_set str_eq_dec).
  destruct (find _ _) as [kv|] eqn:F.
  - apply find_some in F. destruct F as [Hkv Hp]. apply in_rev in Hkv.
    destruct (str_eq_dec (strip (fst kv)) (strip h)) as [Hs|]; [|discriminate].
    assert (Hk : fst kv = h)
      by exact (nodup_map_inj strip header _ _ Hn (make_dict_row_keys _ _ _ Hkv)
                  (nth_error_In _ _ Hi) Hs).
    destruct kv as [k v]. simpl in Hk. subst k.
    rewrite (dict_lookup_nodup_in str_eq_dec h v _ (make_dict_row_nodup _ _) Hkv) in Hl.
    injection Hl as ->. reflexivity.
  - exfalso. apply (dict_lookup_in str_eq_dec) in Hl.
    assert (Hin : In (h, nth_error record i) (rev (entries (make_dict_row header record))))
      by (rewrite <- in_rev; exact Hl).
    pose proof (find_none _ _ F _ Hin) as Hf. simpl in Hf.
    destruct (str_eq_dec (strip h) (strip h)); [discriminate|congruence].
Qed.





(** Reading a loaded row by column: when the trimmed headers are
    distinct, the row built by [load_csv] from a record holds, under the
    trimmed [i]-th header, the trimmed [i]-th cell of the record, or
    [None] when the record is shorter than the header. *)
Theorem clean_row_lookup header record i h :
  NoDup (map strip header) -> nth_error header i = Some h ->
  dict_lookup str_eq_dec (strip h) (clean_row (make_dict_row header record)) =
  Some (option_map strip (nth_error record i)).
Proof. exact (clean_row_cell header record i h). Qed.

Definition padded_header : list str := [u " Name "; u "Points"].

Lemma clean_row_lookup_witness :
  NoDup (map strip padded_header) /\ nth_error padded_header 1 = Some (u "Points") /\
  dict_lookup str_eq_dec (strip (u "Points"))
    (clean_row (make_dict_row padded_header [u " Alpha "])) =
  Some (option_map strip (nth_error [u " Alpha "] 1)).
Proof.
  assert (Hn : NoDup (map strip padded_header)).
  { vm_compute. apply NoDup_cons; [intros [H|[]]; discriminate H|].
    apply NoDup_cons; [intros []|apply NoDup_nil]. }
  assert (Hi : nth_error padded_header 1 = Some (u "Points")) by reflexivity.
  split; [exact Hn|]. split; [exact Hi|]. exact (clean_row_lookup _ _ _ _ Hn Hi).
Defined.

(** ** Reading back plain comma-separated lines *)

(** A character the reader treats as plain data: no line break, no
    delimiter, no quote character. *)
Definition plain_char (c : N) : bool :=
  negb ((c =? LF) || (c =? CR) || (c =? DELIMITER) || (c =? QUOTECHAR))%N.

(** A record the [csv] reader can read back from its line: plain fields
    within the field size limit, and not the single empty field (whose
    line is blank). *)
Definition plain_record (fs : list str) : bool :=
  match fs with
  | [[]] => false
  | _ => forallb (fun f => forallb plain_char f
                           && (N.of_nat (List.length f) <=? field_limit)%N) fs
  end.

(** The line of a record: its fields joined by the delimiter, then the
    line ending [nl]. *)
Definition csv_line (nl : str) (fs : list str) : str := str_join [DELIMITER] fs ++ nl.

Lemma plain_char_spec c :
  plain_char c = true ->
  (c =? LF)%N = false /\ (c =? CR)%N = false /\
  (DELIMITER =? c)%N = false /\ (QUOTECHAR =? c)%N = false.
Proof.
  unfold plain_char. rewrite (N.eqb_sym DELIMITER), (N.eqb_sym QUOTECHAR).
  destruct (c =? LF)%N, (c =? CR)%N, (c =? DELIMITER)%N, (c =? QUOTECHAR)%N;
    simpl; intros H; try discriminate; auto.
Qed.

Lemma split_lines_aux_line (l nl rest cur : str) :
  Forall (fun c => c <> LF /\ c <> CR) l -> nl = [LF] \/ nl = [CR; LF] ->
  split_lines_aux (l ++ nl ++ rest) cur = (rev cur ++ l ++ nl) :: split_lines_aux rest [].
Proof.
  intros Hl Hnl. revert cur. induction Hl as [|c l [Hlf Hcr] Hl IH]; intros cur.
  - destruct Hnl as [-> | ->]; simpl.
    + reflexivity.
    + rewrite <- app_assoc. reflexivity.
  - simpl. apply N.eqb_neq in Hlf, Hcr. rewrite Hlf, Hcr, IH. simpl.
    rewrite <- app_assoc. reflexivity.
Qed.

Lemma str_join_no_newline (fs : list str) :
  Forall (fun f => Forall (fun c => plain_char c = true) f) fs ->
  Forall (fun c => c <> LF /\ c <> CR) (str_join [DELIMITER] fs).
Proof.
  assert (Hp : forall f, Forall (fun c => plain_char c = true) f ->
                         Forall (fun c => c <> LF /\ c <> CR) f).
  { intros f. apply Forall_impl. intros c Hc.
    destruct (plain_char_spec c Hc) as [H1 [H2 _]].
    split; apply N.eqb_neq; assumption. }
  induction fs as [|f fs IH]; intros H; [constructor|].
  inversion H as [|? ? Hf Hfs]; subst.
  destruct fs as [|f2 fs']; [apply Hp; exact Hf|].
  change (str_join [DELIMITER] (f :: f2 :: fs'))
    with (f ++ [DELIMITER] ++ str_join [DELIMITER] (f2 :: fs')).
  apply Forall_app. split; [apply Hp; exact Hf|].
  apply Forall_app. split; [constructor; [split; discriminate|constructor]|].
  exact (IH Hfs).
Qed.

Lemma split_lines_csv_lines nl records :
  nl = [LF] \/ nl = [CR; LF] ->
  Forall (fun fs => Forall (fun f => Forall (fun c => plain_char c = true) f) fs) records ->
  split_lines (List.concat (map (csv_line nl) records)) = map (csv_line nl) records.
Proof.
  intros Hnl H. unfold split_lines. induction H as [|fs records Hfs H IH]; [reflexivity|].
  simpl. unfold csv_line at 1. rewrite <- app_assoc.
  rewrite (split_lines_aux_line _ _ _ _ (str_join_no_newline _ Hfs) Hnl), IH.
  reflexivity.
Qed.

(** Plain characters in [IN_FIELD] are appended to the current field. *)
Lemma feed_in_field f r rest :
  state r = IN_FIELD -> Forall (fun c => plain_char c = true) f ->
  (field_len r + N.of_nat (List.length f) <= field_limit)%N ->
  feed r (map Chr f ++ rest) =
  feed (mkReader IN_FIELD (fields r) (rev f ++ field r)
          (field_len r + N.of_nat (List.length f))) rest.
Proof.
  revert r. induction f as [|c f IH]; intros [st fs fd fl] Hst Hf Hlen;
    cbn [state fields field field_len] in *; subst st.
  - cbn [map app rev List.length]. rewrite N.add_0_r. reflexivity.
  - inversion Hf as [|? ? Hc Hf']; subst.
    destruct (plain_char_spec c Hc) as [H1 [H2 [H3 _]]].
    cbn [map app feed].
    unfold parse_process_char, add_char_in, parse_add_char, is_newline, is_eol, is_chr.
    cbn [state fields field field_len]. rewrite H1, H2, H3. cbn [orb].
    destruct (N.leb_spec field_limit fl) as [Hle|_];
      [cbn [List.length] in Hlen; lia|].
    unfold with_state. cbn [state fields field field_len].
    rewrite (IH (mkReader IN_FIELD fs (c :: fd) (N.succ fl)));
      cbn [state fields field field_len];
      [|reflexivity|exact Hf'|cbn [List.length] in Hlen; lia].
    cbn [rev List.length]. rewrite <- app_assoc. f_equal. f_equal. lia.
Qed.

Definition at_field_start (r : reader) : Prop :=
  (state r = START_RECORD \/ state r = START_FIELD) /\ field r = [] /\ field_len r = 0%N.

(** A non-empty plain field at the start of a field. *)
Lemma feed_field_start c f r rest :
  at_field_start r -> Forall (fun c => plain_char c = true) (c :: f) ->
  (N.of_nat (List.length (c :: f)) <= field_limit)%N ->
  feed r (map Chr (c :: f) ++ rest) =
  feed (mkReader IN_FIELD (fields r) (rev (c :: f)) (N.of_nat (List.length (c :: f)))) rest.
Proof.
  destruct r as [st fs fd fl]. intros [Hst [Hfd Hfl]] Hf Hlen. simpl in Hst, Hfd, Hfl.
  subst fd fl. inversion Hf as [|? ? Hc Hf']; subst.
  destruct (plain_char_spec c Hc) as [H1 [H2 [H3 H4]]].
  assert (Hstep : parse_process_char (mkReader st fs [] 0%N) (Chr c) =
                  inr (mkReader IN_FIELD fs [c] 1%N)).
  { unfold parse_process_char, start_field, add_char_in, parse_add_char,
      is_newline, is_eol, is_chr, with_state.
    destruct Hst as [-> | ->]; cbn [state fields field field_len];
      rewrite ?H1, ?H2, ?H3, ?H4; reflexivity. }
  cbn [map app feed]. rewrite Hstep.
  rewrite (feed_in_field f (mkReader IN_FIELD fs [c] 1%N));
    cbn [state fields field field_len]; [|reflexivity|exact Hf'|cbn [List.length] in Hlen; lia].
  cbn [rev List.length]. f_equal. f_equal. lia.
Qed.

(** A plain field followed by the delimiter: the field is saved and the
    next one starts. *)
Lemma feed_field_delim f r rest :
  at_field_start r -> Forall (fun c => plain_char c = true) f ->
  (N.of_nat (List.length f) <= field_limit)%N ->
  feed r (map Chr f ++ Chr DELIMITER :: rest) =
  feed (mkReader START_FIELD (fields r ++ [f]) [] 0%N) rest.
Proof.
  intros Hr Hf Hlen. destruct f as [|c f].
  - destruct r as [st fs fd fl]. destruct Hr as [Hst [Hfd Hfl]]. simpl in Hst, Hfd, Hfl.
    subst fd fl. destruct Hst as [-> | ->]; reflexivity.
  - rewrite (feed_field_start c f r (Chr DELIMITER :: rest) Hr Hf Hlen). simpl.
    unfold with_state, parse_save_field. cbn [state fields field field_len].
    rewrite rev_app_distr, rev_involutive. reflexivity.
Qed.

(** The last plain field, then the line ending and the end of the line:
    the record is complete. *)
Lemma feed_field_last nl f r :
  nl = [LF] \/ nl = [CR; LF] ->
  at_field_start r -> (f <> [] \/ state r = START_FIELD) ->
  Forall (fun c => plain_char c = true) f ->
  (N.of_nat (List.length f) <= field_limit)%N ->
  feed r (map Chr f ++ map Chr nl ++ [EOL]) = inr (mkReader START_RECORD (fields r ++ [f]) [] 0%N).
Proof.
  intros Hnl Hr Hne Hf Hlen. destruct f as [|c f].
  - destruct r as [st fs fd fl]. destruct Hr as [_ [Hfd Hfl]].
    destruct Hne as [Hne|Hst]; [contradiction Hne; reflexivity|]. simpl in Hst, Hfd, Hfl.
    subst st fd fl. destruct Hnl as [-> | ->]; reflexivity.
  - rewrite (feed_field_start c f r _ Hr Hf Hlen). simpl.
    destruct Hnl as [-> | ->]; simpl;
      unfold with_state, end_of_line, with_state, parse_save_field;
      cbn [state fields field field_len is_eol];
      rewrite rev_app_distr, rev_involutive; reflexivity.
Qed.

Lemma feed_fields nl fs r :
  nl = [LF] \/ nl = [CR; LF] -> fs <> [] ->
  at_field_start r -> (fs <> [[]] \/ state r = START_FIELD) ->
  Forall (fun f => Forall (fun c => plain_char c = true) f /\
                   (N.of_nat (List.length f) <= field_limit)%N) fs ->
  feed r (map Chr (str_join [DELIMITER] fs) ++ map Chr nl ++ [EOL]) =
  inr (mkReader START_RECORD (fields r ++ fs) [] 0%N).
Proof.
  intros Hnl. revert r. induction fs as [|f fs IH]; intros r Hfs Hr Hne H;
    [contradiction Hfs; reflexivity|].
  inversion H as [|? ? [Hf Hlen] H']; subst.
  destruct fs as [|f2 fs'].
  - apply (feed_field_last nl f r Hnl Hr); [|exact Hf|exact Hlen].
    destruct Hne as [Hne|Hst]; [left; intros ->; apply Hne; reflexivity|right; exact Hst].
  - change (str_join [DELIMITER] (f :: f2 :: fs'))
      with (f ++ DELIMITER :: str_join [DELIMITER] (f2 :: fs')).
    rewrite map_app, <- app_assoc. cbn [map app].
    rewrite (feed_field_delim f r _ Hr Hf Hlen).
    rewrite (IH (mkReader START_FIELD (fields r ++ [f]) [] 0%N)); simpl.
    + rewrite <- app_assoc. reflexivity.
    + discriminate.
    + split; [right; reflexivity|split; reflexivity].
    + right. reflexivity.
    + exact H'.
Qed.

Lemma plain_record_spec fs :
  plain_record fs = true ->
  fs <> [[]] /\
  Forall (fun f => Forall (fun c => plain_char c = true) f /\
                   (N.of_nat (List.length f) <= field_limit)%N) fs.
Proof.
  intros H.
  assert (Hall : forallb (fun f => forallb plain_char f
                           && (N.of_nat (List.length f) <=? field_limit)%N) fs = true).
  { destruct fs as [|[|c f] [|f2 fs]]; try discriminate; exact H. }
  split; [intros ->; discriminate|].
  apply Forall_forall. intros f Hin. rewrite forallb_forall in Hall.
  destruct (andb_prop _ _ (Hall f Hin)) as [H1 H2]. split.
  - apply Forall_forall. rewrite forallb_forall in H1. exact H1.
  - apply N.leb_le. exact H2.
Qed.

Lemma feed_csv_line nl fs :
  nl = [LF] \/ nl = [CR; LF] -> plain_record fs = true ->
  feed parse_reset (map Chr (csv_line nl fs) ++ [EOL]) = inr (mkReader START_RECORD fs [] 0%N).
Proof.
  intros Hnl Hp. destruct (plain_record_spec fs Hp) as [Hne H].
  unfold csv_line. rewrite map_app, <- app_assoc. destruct fs as [|f fs].
  - destruct Hnl as [-> | ->]; reflexivity.
  - apply (feed_fields nl (f :: fs) parse_reset Hnl); [discriminate| |left; exact Hne|exact H].
    split; [left; reflexivity|split; reflexivity].
Qed.

(** The [csv] reader reads back what a writer of plain records puts in a
    file: records of plain fields within the field size limit, each
    written as its fields joined by commas and ended by ["\n"] or
    ["\r\n"], are read as exactly those records, the empty record as an
    empty line; the single empty field is the one record that does not
    come back. *)
Theorem csv_reader_plain_records nl records :
  nl = [LF] \/ nl = [CR; LF] ->
  forallb plain_record records = true ->
  csv_reader (List.concat (map (csv_line nl) records)) = (records, None).
Proof.
  intros Hnl Hall. rewrite forallb_forall in Hall.
  unfold csv_reader. rewrite split_lines_csv_lines; [|exact Hnl|].
  - induction records as [|fs records IH]; [reflexivity|].
    simpl. rewrite (feed_csv_line nl fs Hnl (Hall fs (or_introl eq_refl))). simpl.
    rewrite IH; [reflexivity|]. intros fs' Hin. apply Hall. right. exact Hin.
  - apply Forall_forall. intros fs Hin.
    destruct (plain_record_spec fs (Hall fs Hin)) as [_ H].
    apply (Forall_impl _ (fun f Hf => proj1 Hf) H).
Qed.

Definition plain_records : list (list str) :=
  [[u "Name"; u "Points"]; [u "Alpha"; u " 10"]; []; [EMPTY; u "x"]].

Lemma csv_reader_plain_records_witness :
  forallb plain_record plain_records = true /\
  csv_reader (List.concat (map (csv_line [CR; LF]) plain_records)) = (plain_records, None).
Proof.
  assert (H : forallb plain_record plain_records = true) by (vm_compute; reflexivity).
  split; [exact H|]. exact (csv_reader_plain_records [CR; LF] _ (or_intror eq_refl) H).
Defined.

(** The exceptions [load_csv] raises: the [ValueError] for a missing
    header row, or an error of the [csv] reader; decoding never fails. *)
Theorem load_csv_errors path bytes e :
  load_csv path bytes = inl e ->
  e = ValueError (path ++ u " has no header row.") \/ exists m, e = CsvError m.
Proof.
  destruct (decoded_some bytes) as [text Hd]. rewrite (load_csv_decoded _ _ _ Hd).
  unfold load_text, csv_reader.
  pose proof (read_records_err parse_reset (split_lines text)) as Herr.
  destruct (read_records parse_reset (split_lines text)) as [records err].
  simpl in Herr. intros H.
  destruct records as [|header data]; [|destruct (is_nil header)];
    try destruct err as [e'|]; try discriminate; injection H as <-;
    first [left; reflexivity | right; exact (Herr _ eq_refl)].
Qed.

Lemma load_csv_errors_witness :
  load_csv AVAILABLE_PATH [] = inl (ValueError (AVAILABLE_PATH ++ u " has no header row.")) /\
  (ValueError (AVAILABLE_PATH ++ u " has no header row.")
     = ValueError (AVAILABLE_PATH ++ u " has no header row.") \/
   exists m, ValueError (AVAILABLE_PATH ++ u " has no header row.") = CsvError m).
Proof.
  assert (H : load_csv AVAILABLE_PATH [] =
              inl (ValueError (AVAILABLE_PATH ++ u " has no header row.")))
    by (vm_compute; reflexivity).
  split; [exact H|]. exact (load_csv_errors _ _ _ H).
Defined.
